(** * Interface Poisoning Analyzer

    The metric engine of [interface_poisoning_analyzer.py]: the entity
    store, the resolution passes, the depth walk over the extends-graph, the
    four sub-metrics, the score, and the ranking of the report.

    Conventions.  A Python [int] is a [Z].  A Python [float] is read as the
    exact rational it stands for ([Q]): sums, products and quotients carry
    no rounding error, and [round(x, 3)] rounds the exact value, ties to
    even.  Where the last digit decides, for the poisoning level of a
    score, the score is computed as the code computes it, in IEEE 754
    binary64 with every operation rounded to nearest (the definitions
    named [_double]).  A Python [dict] is an association list in insertion order with
    one entry per key.  The [set] of visited names is a [gset string].
    Methods that mutate the analyzer take it and return it; the external
    collaborators (parser, file reading, regular expressions) are the fields
    of an environment record. *)

From Stdlib Require Import ZArith QArith Qround Qpower Lia Lqa DecimalString.
From Stdlib Require Import PrimFloat FloatOps SpecFloat Uint63.
From stdpp Require Import base option list gmap strings sets sorting.

Local Open Scope string_scope.
Local Open Scope Z_scope.

(** ** Python dictionaries (insertion ordered) *)

Module Dict.

Section Ops.
Context {V : Type}.

(** [k in d] *)
Fixpoint mem (k : string) (d : list (string * V)) : bool :=
  match d with
  | [] => false
  | (k', _) :: d' => if decide (k = k') then true else mem k d'
  end.

(** [d[k]]; [None] stands for [KeyError]. *)
Fixpoint get (k : string) (d : list (string * V)) : option V :=
  match d with
  | [] => None
  | (k', v) :: d' => if decide (k = k') then Some v else get k d'
  end.

(** [d[k] = v]: an existing key keeps its position, a new key goes last. *)
Fixpoint set (k : string) (v : V) (d : list (string * V)) : list (string * V) :=
  match d with
  | [] => [(k, v)]
  | (k', v') :: d' =>
      if decide (k = k') then (k', v) :: d' else (k', v') :: set k v d'
  end.

(** Iteration order of [for k in d]. *)
Definition keys (d : list (string * V)) : list string := d.*1.

(** [len(d)] *)
Definition len (d : list (string * V)) : Z := Z.of_nat (length d).
End Ops.

End Dict.

Abbreviation dict V := (list (string * V)).

(** ** The data model (the two dataclasses and the class-info dictionary) *)

Record InterfaceInfo := mkInterfaceInfo {
  name : string;
  file_path : string;
  methods : list string;
  implementations : list string;
  usages : list string;
  method_calls : dict Z;
  extends : list string
}.

(** The [dict] literal built by [_process_class]. *)
Record ClassInfo := mkClassInfo {
  c_name : string;
  c_file_path : string;
  c_implements : list string;
  c_extends : option string;
  c_methods : list string;
  c_method_calls : list string
}.

(** [call_graph] is never read or written by the analyzer and is left out. *)
Record AnalysisResult := mkAnalysisResult {
  interfaces : dict InterfaceInfo;
  classes : dict ClassInfo;
  total_classes : Z
}.

(** The fields of an [InterfacePoisoningAnalyzer] instance. *)
Record Analyzer := mkAnalyzer {
  project_path : string;
  result : AnalysisResult;
  max_call_depth : Z
}.

(** ** The depth resolver *)

Section Depth.
Variable ifaces : dict InterfaceInfo.

(** The [for parent in iface_info.extends] loop of [_get_interface_depth]:
    [rec] is the recursive call, [acc] holds [max_depth] and the one
    [visited] object every call of the walk mutates; [None] is a call
    that did not return. *)
Fixpoint depth_loop (rec : string -> gset string -> option (Z * gset string))
    (parents : list string) (acc : Z * gset string) : option (Z * gset string) :=
  match parents with
  | [] => Some acc
  | parent :: rest =>
      match rec parent acc.2 with
      | None => None
      | Some (depth, visited) => depth_loop rec rest (Z.max acc.1 depth, visited)
      end
  end.

(** [_get_interface_depth(iface_name, visited)], returning the depth and
    the state of [visited] at return.  [fuel] bounds the recursion depth;
    [None] means the bound was hit. *)
Fixpoint get_interface_depth_fuel (fuel : nat) (iface_name : string)
    (visited : gset string) : option (Z * gset string) :=
  match fuel with
  | O => None
  | S fuel' =>
      if decide (iface_name ∈ visited) then Some (0, visited)
      else match Dict.get iface_name ifaces with
           | None => Some (1, visited)
           | Some iface_info =>
               let visited := {[iface_name]} ∪ visited in
               if decide (extends iface_info = []) then Some (1, visited)
               else match depth_loop (get_interface_depth_fuel fuel')
                            (extends iface_info) (0, visited) with
                    | None => None
                    | Some (max_depth, visited) => Some (max_depth + 1, visited)
                    end
           end
  end.

(** Recursion never goes deeper than one frame per stored interface plus
    the frame that hits a visited or absent name. *)
Definition depth_fuel : nat := S (length ifaces).

(** [self._get_interface_depth(iface_name, set())] as an integer. *)
Definition _get_interface_depth (iface_name : string) : Z :=
  match get_interface_depth_fuel depth_fuel iface_name ∅ with
  | Some (depth, _) => depth
  | None => 0
  end.
End Depth.

(** The recursion of the specification: every recursive call receives its
    own copy of the visited-set, extended by the current name only. *)
Section DepthReference.
Variable ifaces : dict InterfaceInfo.

Fixpoint max_over (rec : string -> option Z) (parents : list string) (acc : Z) : option Z :=
  match parents with
  | [] => Some acc
  | parent :: rest =>
      match rec parent with
      | None => None
      | Some depth => max_over rec rest (Z.max acc depth)
      end
  end.

Fixpoint depth_reference_fuel (fuel : nat) (iface_name : string)
    (visited : gset string) : option Z :=
  match fuel with
  | O => None
  | S fuel' =>
      if decide (iface_name ∈ visited) then Some 0
      else match Dict.get iface_name ifaces with
           | None => Some 1
           | Some iface_info =>
               if decide (extends iface_info = []) then Some 1
               else match max_over (fun parent =>
                            depth_reference_fuel fuel' parent ({[iface_name]} ∪ visited))
                          (extends iface_info) 0 with
                    | None => None
                    | Some max_depth => Some (1 + max_depth)
                    end
           end
  end.

Definition depth_reference (iface_name : string) : Z :=
  match depth_reference_fuel (depth_fuel ifaces) iface_name ∅ with
  | Some depth => depth
  | None => 0
  end.
End DepthReference.

(** ** Ingestion and resolution *)

(** A [javalang] interface node as [_process_interface] reads it: its name,
    the names of its methods in declaration order (empty when
    [node.methods] is falsy), and the names of the extended types that have
    a [name] attribute. *)
Record InterfaceDeclaration := mkInterfaceDeclaration {
  node_name : string;
  node_methods : list string;
  node_extends : list string
}.

(** A class node as [_process_class] reads it. *)
Record ClassDeclaration := mkClassDeclaration {
  cnode_name : string;
  cnode_implements : list string;
  cnode_extends : option string;
  cnode_methods : list string
}.

(** What the external collaborators deliver: the parser (the interface and
    class nodes of a source file, [None] when reading or parsing raises),
    file reading ([None] when [open] raises), [re.search] as a test and
    [re.findall] as the list of matches, both given pattern then text. *)
Record Env := mkEnv {
  parse : string -> option (list InterfaceDeclaration * list ClassDeclaration);
  read_file : string -> option string;
  re_search : string -> string -> bool;
  re_findall : string -> string -> list string
}.

(** In-place mutation of the object stored under [k]; every use is under a
    membership test or on a key being iterated. *)
Fixpoint dict_update {V : Type} (k : string) (f : V -> V) (d : dict V) : dict V :=
  match d with
  | [] => []
  | (k', v) :: d' =>
      if decide (k = k') then (k', f v) :: d' else (k', v) :: dict_update k f d'
  end.

Definition set_implementations (l : list string) (i : InterfaceInfo) : InterfaceInfo :=
  mkInterfaceInfo (name i) (file_path i) (methods i) l (usages i) (method_calls i) (extends i).

Definition set_usages (l : list string) (i : InterfaceInfo) : InterfaceInfo :=
  mkInterfaceInfo (name i) (file_path i) (methods i) (implementations i) l (method_calls i)
    (extends i).

Definition set_method_calls (mc : dict Z) (i : InterfaceInfo) : InterfaceInfo :=
  mkInterfaceInfo (name i) (file_path i) (methods i) (implementations i) (usages i) mc
    (extends i).

Definition set_interfaces (d : dict InterfaceInfo) (s : Analyzer) : Analyzer :=
  mkAnalyzer (project_path s)
    (mkAnalysisResult d (classes (result s)) (total_classes (result s))) (max_call_depth s).

Definition set_classes (d : dict ClassInfo) (s : Analyzer) : Analyzer :=
  mkAnalyzer (project_path s)
    (mkAnalysisResult (interfaces (result s)) d (total_classes (result s))) (max_call_depth s).

Definition set_total_classes (n : Z) (s : Analyzer) : Analyzer :=
  mkAnalyzer (project_path s)
    (mkAnalysisResult (interfaces (result s)) (classes (result s)) n) (max_call_depth s).

Definition set_max_call_depth (n : Z) (s : Analyzer) : Analyzer :=
  mkAnalyzer (project_path s) (result s) n.

(** [__init__] *)
Definition init (path : string) : Analyzer :=
  mkAnalyzer path (mkAnalysisResult [] [] 0) 1.

(** [_process_interface]: a fresh [InterfaceInfo], one [method_calls] entry
    per method name, stored under the interface's name. *)
Definition _process_interface (node : InterfaceDeclaration) (path : string)
    (s : Analyzer) : Analyzer :=
  let info :=
    mkInterfaceInfo (node_name node) path
      (node_methods node) [] []
      (foldl (fun mc m => Dict.set m 0 mc) [] (node_methods node))
      (node_extends node) in
  set_interfaces (Dict.set (node_name node) info (interfaces (result s))) s.

(** [_process_class] *)
Definition _process_class (node : ClassDeclaration) (path : string)
    (s : Analyzer) : Analyzer :=
  let class_info :=
    mkClassInfo (cnode_name node) path (cnode_implements node) (cnode_extends node)
      (cnode_methods node) [] in
  set_classes (Dict.set (cnode_name node) class_info (classes (result s))) s.

(** Inside a [try] block: the state reached, and whether an exception cut
    the block short. *)
Inductive outcome (S : Type) := Done (s : S) | Raised (s : S).
Arguments Done {S} s.
Arguments Raised {S} s.

Definition state_of {S : Type} (o : outcome S) : S :=
  match o with Done s | Raised s => s end.

(** A [for] loop whose body may raise. *)
Fixpoint for_each {A S : Type} (body : A -> S -> outcome S) (l : list A) (s : S) : outcome S :=
  match l with
  | [] => Done s
  | x :: l' =>
      match body x s with
      | Done s' => for_each body l' s'
      | Raised s' => Raised s'
      end
  end.

Section Pipeline.
Variable env : Env.

(** [_parse_file]: the interfaces of the file, then its classes; a file
    that cannot be read or parsed contributes nothing. *)
Definition _parse_file (path : string) (s : Analyzer) : Analyzer :=
  match parse env path with
  | None => s
  | Some (inodes, cnodes) =>
      let s := foldl (fun s node => _process_interface node path s) s inodes in
      foldl (fun s node => _process_class node path s) s cnodes
  end.

(** [_find_implementations] *)
Definition _find_implementations (s : Analyzer) : Analyzer :=
  set_interfaces
    (foldl (fun ifaces '(class_name, class_info) =>
       foldl (fun ifaces iface_name =>
                if Dict.mem iface_name ifaces
                then dict_update iface_name
                       (fun i => set_implementations (implementations i ++ [class_name]) i)
                       ifaces
                else ifaces)
             ifaces (c_implements class_info))
     (interfaces (result s)) (classes (result s)))
    s.

(** The three patterns of [_find_usages] for one interface name. *)
Definition usage_patterns (iface_name : string) : list string :=
  [ "\b" +:+ iface_name +:+ "\s+\w+";
    "<" +:+ iface_name +:+ ">";
    "\(" +:+ iface_name +:+ "\s+" ].

(** The body of the [for iface_name in self.result.interfaces] loop. *)
Definition record_usage (class_name content iface_name : string)
    (ifaces : dict InterfaceInfo) : dict InterfaceInfo :=
  if existsb (fun pattern => re_search env pattern content) (usage_patterns iface_name)
  then dict_update iface_name
         (fun i => if decide (class_name ∈ usages i) then i
                   else set_usages (usages i ++ [class_name]) i)
         ifaces
  else ifaces.

(** [_find_usages] *)
Definition _find_usages (s : Analyzer) : Analyzer :=
  set_interfaces
    (foldl (fun ifaces '(class_name, class_info) =>
       match read_file env (c_file_path class_info) with
       | None => ifaces
       | Some content =>
           foldl (fun ifaces iface_name => record_usage class_name content iface_name ifaces)
                 ifaces (Dict.keys ifaces)
       end)
     (interfaces (result s)) (classes (result s)))
    s.

(** [iface_info.method_calls[method_name] += len(matches)]; a missing key
    raises [KeyError]. *)
Definition count_calls (content method_name : string) (i : InterfaceInfo)
    : outcome InterfaceInfo :=
  let matches := re_findall env ("\." +:+ method_name +:+ "\s*\(") content in
  match Dict.get method_name (method_calls i) with
  | Some count =>
      Done (set_method_calls
              (Dict.set method_name (count + Z.of_nat (length matches)) (method_calls i)) i)
  | None => Raised i
  end.

(** The [for iface_name, iface_info in self.result.interfaces.items()] loop:
    each stored object is mutated in place, in insertion order. *)
Fixpoint count_calls_all (content : string) (ifaces : dict InterfaceInfo)
    : outcome (dict InterfaceInfo) :=
  match ifaces with
  | [] => Done []
  | (iface_name, iface_info) :: rest =>
      match for_each (count_calls content) (methods iface_info) iface_info with
      | Done i =>
          match count_calls_all content rest with
          | Done rest' => Done ((iface_name, i) :: rest')
          | Raised rest' => Raised ((iface_name, i) :: rest')
          end
      | Raised i => Raised ((iface_name, i) :: rest)
      end
  end.

(** [_analyze_method_calls]: [except Exception: pass] keeps whatever was
    written before the exception and goes on with the next class. *)
Definition _analyze_method_calls (s : Analyzer) : Analyzer :=
  set_interfaces
    (foldl (fun ifaces '(class_name, class_info) =>
       match read_file env (c_file_path class_info) with
       | None => ifaces
       | Some content => state_of (count_calls_all content ifaces)
       end)
     (interfaces (result s)) (classes (result s)))
    s.

(** The body of the loop of [_calculate_call_depths]. *)
Definition update_max_depth (s : Analyzer) (iface_name : string) : Analyzer :=
  let depth := _get_interface_depth (interfaces (result s)) iface_name in
  if max_call_depth s <? depth then set_max_call_depth depth s else s.

(** [_calculate_call_depths] *)
Definition _calculate_call_depths (s : Analyzer) : Analyzer :=
  foldl update_max_depth s (Dict.keys (interfaces (result s))).

(** [analyze], given the Java files found in the project. *)
Definition analyze (java_files : list string) (s : Analyzer) : Analyzer :=
  let s := foldl (fun s file_path => _parse_file file_path s) s java_files in
  let s := _find_implementations s in
  let s := _find_usages s in
  let s := _analyze_method_calls s in
  let s := _calculate_call_depths s in
  set_total_classes (Dict.len (classes (result s))) s.
End Pipeline.

(** ** Signal aggregation and scoring *)

Local Open Scope Q_scope.

(** The class constants. *)
Definition ALPHA : Q := 0.25.
Definition BETA : Q := 0.15.
Definition GAMMA : Q := 0.25.
Definition DELTA : Q := 0.35.

(** Nearest integer, ties to the even one. *)
Definition round_half_even (x : Q) : Z :=
  let n := Qfloor x in
  match Qcompare (x - inject_Z n) (1 # 2) with
  | Lt => n
  | Gt => (n + 1)%Z
  | Eq => if Z.even n then n else (n + 1)%Z
  end.

(** [round(x, 3)] on the exact value. *)
Definition round3 (x : Q) : Q := round_half_even (x * 1000) # 1000.

(** The local variables of [calculate_ipi] before rounding. *)
Record Metrics := mkMetrics {
  m_ic : Z;
  m_sir : Q;
  m_iu : Z;
  m_uur : Q;
  m_total_methods : Z;
  m_unused_methods : Z;
  m_umr : Q;
  m_cd : Z;
  m_ncd : Q;
  m_ipi : Q
}.

(** [sum(1 for m, count in iface.method_calls.items() if count == 0)] *)
Definition unused_count (mc : dict Z) : Z :=
  Z.of_nat (length (filter (fun e => e.2 = 0%Z) mc)).

Definition metrics (s : Analyzer) (interface_name : string) (iface : InterfaceInfo) : Metrics :=
  let ic := Z.of_nat (length (implementations iface)) in
  let sir := if (0 <? ic)%Z then 1 / inject_Z ic else 1 in
  let iu := Z.of_nat (length (usages iface)) in
  let total_classes := Z.max (total_classes (result s)) 1 in
  let uur := inject_Z iu / inject_Z total_classes in
  let total_methods := Z.of_nat (length (methods iface)) in
  let unused_methods := unused_count (method_calls iface) in
  let umr := if (0 <? total_methods)%Z
             then inject_Z unused_methods / inject_Z total_methods else 0 in
  let cd := _get_interface_depth (interfaces (result s)) interface_name in
  let ncd := if (1 <? max_call_depth s)%Z
             then inject_Z (cd - 1) / inject_Z (max_call_depth s - 1) else 0 in
  let ipi := ALPHA * sir + BETA * (1 - uur) + GAMMA * umr + DELTA * ncd in
  mkMetrics ic sir iu uur total_methods unused_methods umr cd ncd ipi.

(** The dictionary [calculate_ipi] returns. *)
Record IpiRecord := mkIpiRecord {
  r_interface : string;
  r_IC : Z;
  r_SIR : Q;
  r_IU : Z;
  r_UUR : Q;
  r_total_methods : Z;
  r_unused_methods : Z;
  r_UMR : Q;
  r_CallDepth : Z;
  r_NCD : Q;
  r_IPI : Q
}.

Definition to_record (interface_name : string) (m : Metrics) : IpiRecord :=
  mkIpiRecord interface_name (m_ic m) (round3 (m_sir m)) (m_iu m) (round3 (m_uur m))
    (m_total_methods m) (m_unused_methods m) (round3 (m_umr m)) (m_cd m)
    (round3 (m_ncd m)) (round3 (m_ipi m)).

(** [calculate_ipi], with the state of the analyzer after the call. *)
Definition calculate_ipi (interface_name : string) (s : Analyzer)
    : option IpiRecord * Analyzer :=
  match Dict.get interface_name (interfaces (result s)) with
  | None => (None, s)
  | Some iface => (Some (to_record interface_name (metrics s interface_name iface)), s)
  end.

(** ** The report *)

(** [list.sort(key=..., reverse=True)]: descending by key, elements with
    equal keys keep their order. *)
Fixpoint insert_desc {A : Type} (key : A -> Q) (x : A) (l : list A) : list A :=
  match l with
  | [] => [x]
  | y :: l' => if Qle_bool (key y) (key x) then x :: y :: l' else y :: insert_desc key x l'
  end.

Definition sort_desc {A : Type} (key : A -> Q) (l : list A) : list A :=
  foldr (insert_desc key) [] l.

(** The loop of [generate_report] and [export_json] that collects one
    record per stored interface, threading the analyzer through the calls. *)
Fixpoint collect_results (names : list string) (s : Analyzer)
    : list IpiRecord * Analyzer :=
  match names with
  | [] => ([], s)
  | iface_name :: rest =>
      let '(ipi_result, s) := calculate_ipi iface_name s in
      let '(results, s) := collect_results rest s in
      (match ipi_result with Some r => r :: results | None => results end, s)
  end.


Definition is_low (r : IpiRecord) : bool := negb (Qle_bool 0.4 (r_IPI r)).


Local Close Scope Q_scope.

(** ** The pure 2-cycle and the diamond *)

(** An interface fact with its name and extends-edges only. *)
Definition iface_decl (n : string) (ext : list string) : InterfaceInfo :=
  mkInterfaceInfo n "" [] [] [] [] ext.

(** A extends B, B extends A. *)
Definition two_cycle : dict InterfaceInfo :=
  [("A", iface_decl "A" ["B"]); ("B", iface_decl "B" ["A"])].

(** A extends B and C, C extends B, B is a root: the longest chain is
    A, C, B. *)
Definition diamond : dict InterfaceInfo :=
  [("A", iface_decl "A" ["B"; "C"]); ("B", iface_decl "B" []); ("C", iface_decl "C" ["B"])].

(** The same facts with the extends-edges of A listed in the other order. *)
Definition diamond_swapped : dict InterfaceInfo :=
  [("A", iface_decl "A" ["C"; "B"]); ("B", iface_decl "B" []); ("C", iface_decl "C" ["B"])].

(** ** Concrete projects *)

(** An environment given by a table of parsed files: a file's content is
    its path, [uses] lists the (content, pattern) pairs [re.search]
    matches, [calls] the pairs for which [re.findall] finds one match. *)
Definition table_env
    (table : dict (list InterfaceDeclaration * list ClassDeclaration))
    (uses calls : list (string * string)) : Env :=
  mkEnv (fun path => Dict.get path table)
        (fun path => Some path)
        (fun pattern content => bool_decide ((content, pattern) ∈ uses))
        (fun pattern content => if bool_decide ((content, pattern) ∈ calls) then [pattern] else []).

(** A project of six interfaces and seven classes: I declares m1, m2, m3,
    extends the chain J1, J2, J3, J4 and is extended by K; C1 and C2
    implement I; only C1 refers to I, and calls m3 once. *)
Definition chain_files : list string :=
  ["I.java"; "C1.java"; "C2.java"; "C3.java"; "C4.java"; "C5.java"; "C6.java"; "C7.java"].

Definition chain_env : Env :=
  table_env
    [ ("I.java",
        ([ mkInterfaceDeclaration "I" ["m1"; "m2"; "m3"] ["J1"];
           mkInterfaceDeclaration "J1" [] ["J2"];
           mkInterfaceDeclaration "J2" [] ["J3"];
           mkInterfaceDeclaration "J3" [] ["J4"];
           mkInterfaceDeclaration "J4" [] [];
           mkInterfaceDeclaration "K" [] ["I"] ], []));
      ("C1.java", ([], [mkClassDeclaration "C1" ["I"] None ["run"]]));
      ("C2.java", ([], [mkClassDeclaration "C2" ["I"] None []]));
      ("C3.java", ([], [mkClassDeclaration "C3" [] None []]));
      ("C4.java", ([], [mkClassDeclaration "C4" [] None []]));
      ("C5.java", ([], [mkClassDeclaration "C5" [] None []]));
      ("C6.java", ([], [mkClassDeclaration "C6" [] None []]));
      ("C7.java", ([], [mkClassDeclaration "C7" [] None []])) ]
    [ ("C1.java", "\bI\s+\w+") ]
    [ ("C1.java", "\.m3\s*\(") ].

Definition chain_project : Analyzer := analyze chain_env chain_files (init "chain").

(** An interface with an overloaded method: two declarations named [area]. *)
Definition overload_env : Env :=
  table_env
    [ ("Shape.java", ([mkInterfaceDeclaration "Shape" ["area"; "area"] []], [])) ]
    [] [].

Definition overload_project : Analyzer := analyze overload_env ["Shape.java"] (init "overload").

(** A class whose implements-list names the same interface twice. *)
Definition twice_env : Env :=
  table_env
    [ ("C.java", ([mkInterfaceDeclaration "I" [] []],
                  [mkClassDeclaration "C" ["I"; "I"] None []])) ]
    [] [].

(** A class that implements an interface once. *)
Definition once_env : Env :=
  table_env
    [ ("C.java", ([mkInterfaceDeclaration "I" [] []],
                  [mkClassDeclaration "C" ["I"] None []])) ]
    [] [].

(** The names [prefix0], [prefix1], ... *)
Definition numbered (prefix : string) (n : Z) : list string :=
  (fun k => prefix +:+ NilZero.string_of_int (Z.to_int k)) <$> seqZ 0 n.

(** The analyzer of a wide project: 15625 classes, 4069 of which refer to
    the interface Svc; Svc has no implementation, declares 32 methods of
    which 21 are never called, extends Base and is extended by Top. *)
Definition wide_project : Analyzer :=
  mkAnalyzer "wide"
    (mkAnalysisResult
       [ ("Svc", mkInterfaceInfo "Svc" "Svc.java" (numbered "m" 32) []
                   (numbered "C" 4069)
                   (((fun m => (m, 0)) <$> take 21 (numbered "m" 32))
                    ++ ((fun m => (m, 1)) <$> drop 21 (numbered "m" 32)))
                   ["Base"]);
         ("Base", mkInterfaceInfo "Base" "Base.java" [] [] [] [] []);
         ("Top", mkInterfaceInfo "Top" "Top.java" [] [] [] [] ["Svc"]) ]
       ((fun n => (n, mkClassInfo n (n +:+ ".java") [] None [] [])) <$> numbered "C" 15625)
       15625)
    3.

(** The formula of the unused method rate read over the declared method
    sequence: every declaration counts, a repeated name once per
    declaration. *)
Definition umr_declared (M : list string) (calls : dict Z) : Q :=
  if (0 <? Z.of_nat (length M))%Z
  then (inject_Z (Z.of_nat (length (filter (fun m => Dict.get m calls = Some 0%Z) M)))
        / inject_Z (Z.of_nat (length M)))%Q
  else 0%Q.

(** ** Predicates of the statements *)

(** Stored names the walk has not entered yet: the measure that bounds the
    recursion depth. *)
Definition unvisited (ifaces : dict InterfaceInfo) (visited : gset string) : nat :=
  length (filter (fun k => k ∉ visited) (Dict.keys ifaces)).

(** Every stored interface extends at most one interface. *)
Definition single_parent (ifaces : dict InterfaceInfo) : Prop :=
  Forall (fun e => (length (extends e.2) <= 1)%nat) ifaces.

(** What holds of every stored value. *)
Definition all_values {V : Type} (P : V -> Prop) (d : dict V) : Prop :=
  Forall (fun e => P e.2) d.

(** After parsing: no usage recorded yet, and no more call counters than
    declared methods. *)
Definition parsed_ok (i : InterfaceInfo) : Prop :=
  usages i = [] /\ (length (method_calls i) <= length (methods i))%nat.

(** After resolution: every usage names a stored class, once. *)
Definition resolved_ok (class_names : list string) (i : InterfaceInfo) : Prop :=
  NoDup (usages i) /\ usages i ⊆ class_names
  /\ (length (method_calls i) <= length (methods i))%nat.

(** The state [analyze] leaves behind. *)
Definition analyzed_ok (s : Analyzer) : Prop :=
  all_values (resolved_ok (Dict.keys (classes (result s)))) (interfaces (result s))
  /\ total_classes (result s) = Dict.len (classes (result s))
  /\ forall k, k ∈ Dict.keys (interfaces (result s)) ->
       _get_interface_depth (interfaces (result s)) k <= max_call_depth s.

(** The call counters of an analyzed interface with distinct method names
    are keyed by those names, in declaration order. *)
Definition counters_by_name (i : InterfaceInfo) : Prop :=
  NoDup (methods i) -> Dict.keys (method_calls i) = methods i.

(** [a] may stand before [b] in a descending list. *)
Definition key_ge {A : Type} (key : A -> Q) (a b : A) : Prop := (key b <= key a)%Q.

(** The elements whose key equals [q], in the order of the list. *)
Definition with_key {A : Type} (key : A -> Q) (q : Q) (l : list A) : list A :=
  List.filter (fun a => Qeq_bool (key a) q) l.

(** ** The score in double precision *)

#[local] Set Warnings "-inexact-float".

(** [float(n)] for an [int]: exact below 2^53, which every length and
    depth of an analyzer is. *)
Definition float_of_Z (z : Z) : float :=
  if z <? 0 then (- of_uint63 (Uint63.of_Z (- z)))%float else of_uint63 (Uint63.of_Z z).

(** The rational a finite double stands for. *)
Definition Q_of_float (x : float) : option Q :=
  match Prim2SF x with
  | S754_zero _ => Some 0%Q
  | S754_finite s m e =>
      let q := (inject_Z (Z.pos m) * 2 ^ e)%Q in Some (if s then (- q)%Q else q)
  | _ => None
  end.

(** [round(x, 3)] of a double: the decimal with three places nearest to the
    value the double stands for, ties to the even one, and of that decimal
    the nearest double, which is the quotient of its thousandths by 1000.
    Once the thousandths reach 2^53 the doubles are more than 0.001 apart
    and [x] is returned, as are an infinity and a NaN. *)
Definition round3_double (x : float) : float :=
  match Prim2SF x with
  | S754_zero s => if s then (- 0)%float else 0%float
  | S754_finite s m e =>
      let k := round_half_even (inject_Z (Z.pos m) * 2 ^ e * 1000)%Q in
      if k <? 2 ^ 53
      then if s then (- (float_of_Z k / 1000))%float else (float_of_Z k / 1000)%float
      else x
  | _ => x
  end.

(** The class constants as doubles. *)
Definition ALPHA_double : float := 0.25.
Definition BETA_double : float := 0.15.
Definition GAMMA_double : float := 0.25.
Definition DELTA_double : float := 0.35.

(** The local [ipi] of [calculate_ipi], every operation rounded to the
    nearest double as Python does. *)
Definition ipi_double (s : Analyzer) (interface_name : string) (iface : InterfaceInfo)
    : float :=
  let ic := Z.of_nat (length (implementations iface)) in
  let sir := if 0 <? ic then (1 / float_of_Z ic)%float else 1%float in
  let iu := Z.of_nat (length (usages iface)) in
  let total_classes := Z.max (total_classes (result s)) 1 in
  let uur := (float_of_Z iu / float_of_Z total_classes)%float in
  let total_methods := Z.of_nat (length (methods iface)) in
  let unused_methods := unused_count (method_calls iface) in
  let umr := if 0 <? total_methods
             then (float_of_Z unused_methods / float_of_Z total_methods)%float
             else 0%float in
  let cd := _get_interface_depth (interfaces (result s)) interface_name in
  let ncd := if 1 <? max_call_depth s
             then (float_of_Z (cd - 1) / float_of_Z (max_call_depth s - 1))%float
             else 0%float in
  (ALPHA_double * sir + BETA_double * (1 - uur) + GAMMA_double * umr
   + DELTA_double * ncd)%float.

(** The entry ['IPI'] of the dictionary [calculate_ipi] returns. *)
Definition IPI_double (interface_name : string) (s : Analyzer) : option float :=
  match Dict.get interface_name (interfaces (result s)) with
  | None => None
  | Some iface => Some (round3_double (ipi_double s interface_name iface))
  end.

(** The three list comprehensions of the poisoning levels, on doubles. *)
Definition is_high_double (ipi : float) : bool := (0.7 <? ipi)%float.
Definition is_medium_double (ipi : float) : bool := ((0.4 <=? ipi) && (ipi <=? 0.7))%float.
Definition is_low_double (ipi : float) : bool := (ipi <? 0.4)%float.

(** A project of 25 classes around the interface T: T declares five
    methods of which m3 and m4 are called, extends P, is implemented by the
    first four classes and referred to by the first [iu]; with [top] an
    interface Top extends T. *)
Definition tie_files : list string := "T.java" :: ((fun n => n +:+ ".java") <$> numbered "C" 25).

Definition tie_env (iu : Z) (top : bool) : Env :=
  table_env
    (("T.java",
       (mkInterfaceDeclaration "T" (numbered "m" 5) ["P"]
        :: mkInterfaceDeclaration "P" [] []
        :: (if top then [mkInterfaceDeclaration "Top" [] ["T"]] else []), []))
     :: (((fun n => (n +:+ ".java", ([], [mkClassDeclaration n ["T"] None []])))
            <$> take 4 (numbered "C" 25))
         ++ ((fun n => (n +:+ ".java", ([], [mkClassDeclaration n [] None []])))
               <$> drop 4 (numbered "C" 25)))%list)
    ((fun n => (n +:+ ".java", "\bT\s+\w+")) <$> numbered "C" iu)
    [ ("C0.java", "\.m3\s*\("); ("C0.java", "\.m4\s*\(") ].

Definition tie_project (iu : Z) (top : bool) : Analyzer :=
  analyze (tie_env iu top) tie_files (init "tie").

(** What the three comprehensions answer for the double nearest to
    [k]/1000. *)
Definition bands_agree (k : Z) : bool :=
  let r := (float_of_Z k / 1000)%float in
  Bool.eqb (is_high_double r) (700 <? k)
  && Bool.eqb (is_medium_double r) ((400 <=? k) && (k <=? 700))
  && Bool.eqb (is_low_double r) (k <? 400)
  && PrimFloat.eqb r r.

(** ** Characterisations of the passes and the report summary *)

(** The declared facts of an interface: what parsing wrote and no later
    pass may touch. *)
Definition same_facts (i i' : InterfaceInfo) : Prop :=
  name i = name i' /\ file_path i = file_path i'
  /\ methods i = methods i' /\ extends i = extends i'.

(** The same names in the same order, each with the same declared facts. *)
Definition same_store (d d' : dict InterfaceInfo) : Prop :=
  Forall2 (fun e e' => e.1 = e'.1 /\ same_facts e.2 e'.2) d d'.

(** Every entry is stored under the name it carries. *)
Definition keyed_by_name (d : dict InterfaceInfo) : Prop :=
  Forall (fun e => name e.2 = e.1) d.

Definition classes_keyed_by_name (d : dict ClassInfo) : Prop :=
  Forall (fun e => c_name e.2 = e.1) d.

(** What parsing establishes, whatever the files hold. *)
Definition parsed_wf (depth0 : Z) (s : Analyzer) : Prop :=
  NoDup (Dict.keys (interfaces (result s))) /\ keyed_by_name (interfaces (result s))
  /\ NoDup (Dict.keys (classes (result s))) /\ classes_keyed_by_name (classes (result s))
  /\ max_call_depth s = depth0.

(** The class names [_find_implementations] appends for the interface [k]:
    in the order of the class store, each class once per occurrence of [k]
    in its implements-list. *)
Definition implementers (k : string) (cls : dict ClassInfo) : list string :=
  flat_map (fun e => replicate (length (filter (fun n => n = k) (c_implements e.2))) e.1) cls.

Definition add_implementers (l : list string) (i : InterfaceInfo) : InterfaceInfo :=
  set_implementations (implementations i ++ l) i.

(** [if class_name not in usages: usages.append(class_name)] *)
Definition add_once (c : string) (us : list string) : list string :=
  if decide (c ∈ us) then us else us ++ [c].

(** Whether one of the three patterns for [k] matches the text. *)
Definition refers_to (env : Env) (k content : string) : bool :=
  existsb (fun pattern => re_search env pattern content) (usage_patterns k).

(** The classes [_find_usages] reports for the interface [k]: in the order
    of the class store, those whose file can be read and matches. *)
Definition users (env : Env) (k : string) (cls : dict ClassInfo) : list string :=
  omap (fun e => match read_file env (c_file_path e.2) with
                 | Some content => if refers_to env k content then Some e.1 else None
                 | None => None
                 end) cls.

Definition add_users (l : list string) (i : InterfaceInfo) : InterfaceInfo :=
  set_usages (foldl (fun us c => add_once c us) (usages i) l) i.

(** The number of call-pattern matches for the method name [m], summed over
    the stored classes whose file can be read (a file that holds several
    stored classes is read, and counted, once per class). *)
Definition matches_in (env : Env) (m : string) (cls : dict ClassInfo) : Z :=
  foldr (fun e acc =>
           match read_file env (c_file_path e.2) with
           | Some content =>
               Z.of_nat (length (re_findall env ("\." +:+ m +:+ "\s*\(") content)) + acc
           | None => acc
           end) 0 cls.

(** How often the name [m] is declared. *)
Definition occurrences (m : string) (ms : list string) : Z :=
  Z.of_nat (length (filter (fun x => x = m) ms)).

(** Every declared method has a call counter. *)
Definition counters_complete (i : InterfaceInfo) : Prop :=
  forall m, m ∈ methods i -> is_Some (Dict.get m (method_calls i)).

(** [i'] is [i] with every counter raised by [delta] per declaration of its
    method name, and nothing else changed. *)
Definition counted (delta : string -> Z) (i i' : InterfaceInfo) : Prop :=
  same_facts i i' /\ implementations i' = implementations i /\ usages i' = usages i
  /\ Dict.keys (method_calls i') = Dict.keys (method_calls i)
  /\ forall m, Dict.get m (method_calls i')
               = (fun c => c + occurrences m (methods i) * delta m) <$> Dict.get m (method_calls i).

Definition counted_store (delta : string -> Z) (d d' : dict InterfaceInfo) : Prop :=
  Forall2 (fun e e' => e.1 = e'.1 /\ counted delta e.2 e'.2) d d'.

(** After parsing, and until calls are counted: a counter 0 for exactly the
    declared method names. *)
Definition counters_zero (i : InterfaceInfo) : Prop :=
  forall m, Dict.get m (method_calls i) = if decide (m ∈ methods i) then Some 0 else None.

Local Open Scope Q_scope.







Local Close Scope Q_scope.

(** * Properties *)

(** ** Termination of the depth walk *)

Section DepthTermination.
Variable ifaces : dict InterfaceInfo.

Lemma filter_length_mono (P Q : string -> Prop)
    `{!forall x, Decision (P x)} `{!forall x, Decision (Q x)} (l : list string) :
  (forall x, P x -> Q x) -> (length (filter P l) <= length (filter Q l))%nat.
Proof.
  intros HPQ. induction l as [|x l IH]; [done|].
  rewrite !filter_cons. destruct (decide (P x)) as [HP|HP].
  - rewrite decide_True by auto. simpl. lia.
  - destruct (decide (Q x)); simpl; lia.
Qed.

Lemma filter_length_strict (P Q : string -> Prop)
    `{!forall x, Decision (P x)} `{!forall x, Decision (Q x)} (l : list string) (k : string) :
  (forall x, P x -> Q x) -> k ∈ l -> Q k -> ~ P k ->
  (length (filter P l) < length (filter Q l))%nat.
Proof.
  intros HPQ Hin HQ HnP. induction l as [|x l IH]; [by apply elem_of_nil in Hin|].
  rewrite !filter_cons. apply elem_of_cons in Hin as [->|Hin].
  - rewrite decide_False by done. rewrite decide_True by done. simpl.
    pose proof (filter_length_mono P Q l HPQ). lia.
  - specialize (IH Hin). destruct (decide (P x)) as [HP|HP].
    + rewrite decide_True by auto. simpl. lia.
    + destruct (decide (Q x)); simpl; lia.
Qed.

Lemma unvisited_bound visited : (unvisited ifaces visited <= length ifaces)%nat.
Proof.
  unfold unvisited, Dict.keys.
  etrans; [apply length_filter|]. by rewrite length_fmap.
Qed.

Lemma unvisited_mono (v v' : gset string) : v ⊆ v' -> (unvisited ifaces v' <= unvisited ifaces v)%nat.
Proof. intros Hsub. apply filter_length_mono. set_solver. Qed.

Lemma get_Some_key (k : string) (i : InterfaceInfo) :
  Dict.get k ifaces = Some i -> k ∈ Dict.keys ifaces.
Proof.
  unfold Dict.keys. generalize ifaces. intros d.
  induction d as [|[k' v] d IH]; simpl; [done|].
  case_decide; [subst; intros _; apply elem_of_cons; by left
               | intros Hd; apply elem_of_cons; right; by apply IH].
Qed.

Lemma unvisited_enter (k : string) (i : InterfaceInfo) (v : gset string) :
  Dict.get k ifaces = Some i -> k ∉ v ->
  (unvisited ifaces ({[k]} ∪ v) < unvisited ifaces v)%nat.
Proof.
  intros Hget Hk. apply (filter_length_strict _ _ _ k).
  - set_solver.
  - by eapply get_Some_key.
  - done.
  - set_solver.
Qed.

(** The loop returns when every call it makes does. *)
Lemma depth_loop_returns (rec : string -> gset string -> option (Z * gset string))
    (bound : nat) (parents : list string) :
  (forall p v, (unvisited ifaces v < bound)%nat ->
     exists d v', rec p v = Some (d, v') /\ v ⊆ v' /\ 0 <= d) ->
  forall acc, (unvisited ifaces acc.2 < bound)%nat ->
  exists m v', depth_loop rec parents acc = Some (m, v') /\ acc.2 ⊆ v' /\ acc.1 <= m.
Proof.
  intros Hrec. induction parents as [|p ps IH]; intros [m v] Hlt; simpl in *.
  - exists m, v. split_and!; [done|done|lia].
  - destruct (Hrec p v Hlt) as (d & v1 & -> & Hsub & Hd).
    destruct (IH (Z.max m d, v1)) as (m' & v' & -> & Hsub' & Hm); simpl in *.
    + pose proof (unvisited_mono _ _ Hsub). lia.
    + exists m', v'. split_and!; [done|set_solver|lia].
Qed.

(** With more fuel than unvisited stored names the walk returns; the
    visited-set only grows and the depth is not negative. *)
Lemma get_interface_depth_fuel_returns (fuel : nat) :
  forall iface_name visited, (unvisited ifaces visited < fuel)%nat ->
  exists d v', get_interface_depth_fuel ifaces fuel iface_name visited = Some (d, v')
               /\ visited ⊆ v' /\ 0 <= d.
Proof.
  induction fuel as [|fuel IH]; intros n v Hlt; [lia|]. simpl.
  case_decide as Hin; [exists 0, v; split_and!; [done|done|lia]|].
  destruct (Dict.get n ifaces) as [info|] eqn:Hget;
    [|exists 1, v; split_and!; [done|done|lia]].
  case_decide as Hext; [exists 1, ({[n]} ∪ v); split_and!; [done|set_solver|lia]|].
  pose proof (unvisited_enter _ _ _ Hget Hin) as Hdec.
  destruct (depth_loop_returns (get_interface_depth_fuel ifaces fuel) fuel (extends info) IH
              (0, {[n]} ∪ v)) as (m & v' & -> & Hsub & Hm); simpl in *; [lia|].
  exists (m + 1), v'. split_and!; [done|set_solver|lia].
Qed.

Lemma depth_loop_ext (rec1 rec2 : string -> gset string -> option (Z * gset string))
    (parents : list string) :
  (forall p v r, rec1 p v = Some r -> rec2 p v = Some r) ->
  forall acc r, depth_loop rec1 parents acc = Some r -> depth_loop rec2 parents acc = Some r.
Proof.
  intros Hext. induction parents as [|p ps IH]; intros acc r; simpl; [done|].
  destruct (rec1 p acc.2) as [[d v]|] eqn:H1; [|done].
  rewrite (Hext _ _ _ H1). apply IH.
Qed.

(** A result obtained with some fuel is the result with any larger fuel. *)
Lemma get_interface_depth_fuel_mono (fuel : nat) :
  forall fuel' iface_name visited r, (fuel <= fuel')%nat ->
  get_interface_depth_fuel ifaces fuel iface_name visited = Some r ->
  get_interface_depth_fuel ifaces fuel' iface_name visited = Some r.
Proof.
  induction fuel as [|fuel IH]; intros fuel' n v r Hle; [done|].
  destruct fuel' as [|fuel']; [lia|]. simpl.
  case_decide; [done|]. destruct (Dict.get n ifaces) as [info|]; [|done].
  case_decide; [done|].
  destruct (depth_loop _ (extends info) _) as [[m v']|] eqn:Hloop; [|done].
  intros <-.
  apply (depth_loop_ext _ (get_interface_depth_fuel ifaces fuel')) in Hloop.
  - by rewrite Hloop.
  - intros p' v0 r0. apply IH. lia.
Qed.
End DepthTermination.

(** C7: on every store, whatever the shape of its extends-graph, the depth
    walk started with a fresh empty visited-set returns: the fuel the model
    supplies is never exhausted, any larger bound gives the same answer, and
    the answer is the value of [_get_interface_depth]. *)
Theorem get_interface_depth_terminates (ifaces : dict InterfaceInfo) (iface_name : string) :
  exists depth visited,
    get_interface_depth_fuel ifaces (depth_fuel ifaces) iface_name ∅ = Some (depth, visited)
    /\ _get_interface_depth ifaces iface_name = depth
    /\ forall fuel, (depth_fuel ifaces <= fuel)%nat ->
         get_interface_depth_fuel ifaces fuel iface_name ∅ = Some (depth, visited).
Proof.
  destruct (get_interface_depth_fuel_returns ifaces (depth_fuel ifaces) iface_name ∅)
    as (d & v & Hd & _ & _).
  { unfold depth_fuel. pose proof (unvisited_bound ifaces ∅). lia. }
  exists d, v. split_and!; [done| |].
  - unfold _get_interface_depth. by rewrite Hd.
  - intros fuel Hle. by eapply get_interface_depth_fuel_mono.
Qed.

(** C1, as stated, fails: on the pure 2-cycle the depths are not both 1. *)
Lemma two_cycle_depth_is_not_one :
  ~ (_get_interface_depth two_cycle "A" = 1 /\ _get_interface_depth two_cycle "B" = 1).
Proof. vm_compute. intros [H _]. discriminate H. Qed.

(** One step of a symbolic run of the walk: settle the next test, or read
    the next extends list. *)
Ltac walk_step Ha Hb :=
  first [ rewrite decide_True by (set_unfold; intuition congruence)
        | rewrite decide_False by (set_unfold; intuition congruence)
        | rewrite Ha | rewrite Hb ]; simpl.

(** C1, amended: in a store holding exactly the interfaces A and B, where A
    extends B and B extends A, the walk from either one returns (the fuel is
    not exhausted) a positive integer, and that integer is 2: one level for
    the start, one for the other interface, and 0 for the revisited start. *)
Theorem two_cycle_depth (A B : string) (ia ib : InterfaceInfo) :
  A <> B -> extends ia = [B] -> extends ib = [A] ->
  let store := [(A, ia); (B, ib)] in
  (exists visited, get_interface_depth_fuel store (depth_fuel store) A ∅ = Some (2, visited))
  /\ (exists visited, get_interface_depth_fuel store (depth_fuel store) B ∅ = Some (2, visited))
  /\ _get_interface_depth store A = 2 /\ _get_interface_depth store B = 2
  /\ 0 < _get_interface_depth store A /\ 0 < _get_interface_depth store B.
Proof.
  intros Hne Ha Hb store.
  assert (HA : get_interface_depth_fuel store (depth_fuel store) A ∅
               = Some (2, {[B]} ∪ ({[A]} ∪ ∅))).
  { unfold store, depth_fuel. simpl. repeat walk_step Ha Hb. done. }
  assert (HB : get_interface_depth_fuel store (depth_fuel store) B ∅
               = Some (2, {[A]} ∪ ({[B]} ∪ ∅))).
  { unfold store, depth_fuel. simpl. repeat walk_step Ha Hb. done. }
  unfold _get_interface_depth. rewrite HA, HB.
  split_and!; eauto; lia.
Qed.

Lemma two_cycle_depth_witness :
  _get_interface_depth two_cycle "A" = 2 /\ _get_interface_depth two_cycle "B" = 2.
Proof.
  pose proof (two_cycle_depth "A" "B" (iface_decl "A" ["B"]) (iface_decl "B" ["A"])
                ltac:(discriminate) eq_refl eq_refl) as H.
  simpl in H. destruct H as (_ & _ & HA & HB & _). exact (conj HA HB).
Defined.

(** C3: on the diamond the walk of the code, whose visited-set is one object
    shared by the whole walk, returns 2 for A, while the recursion of the
    specification, where each call extends its own visited-set, returns 3,
    the length of the chain A, C, B; with the edges of A listed in the other
    order the code returns 3 as well. *)
Theorem depth_shared_visited_diamond :
  _get_interface_depth diamond "A" = 2
  /\ depth_reference diamond "A" = 3
  /\ _get_interface_depth diamond_swapped "A" = 3
  /\ depth_reference diamond_swapped "A" = 3.
Proof. vm_compute. done. Qed.

(** ** Invariants of ingestion and resolution *)

Lemma foldl_invariant {A B : Type} (P : A -> Prop) (f : A -> B -> A) (l : list B) :
  (forall a x, x ∈ l -> P a -> P (f a x)) -> forall a, P a -> P (foldl f a l).
Proof.
  induction l as [|x l IH]; intros Hstep a Ha; simpl; [done|].
  apply IH.
  - intros a' y Hy. apply Hstep. by apply elem_of_cons; right.
  - apply Hstep; [by apply elem_of_cons; left|done].
Qed.

Lemma all_values_set {V : Type} (P : V -> Prop) (k : string) (v : V) (d : dict V) :
  all_values P d -> P v -> all_values P (Dict.set k v d).
Proof.
  unfold all_values. intros Hd Hv. induction d as [|[k' v'] d IH]; simpl.
  - by constructor.
  - inversion_clear Hd. case_decide; constructor; auto.
Qed.

Lemma all_values_update {V : Type} (P : V -> Prop) (k : string) (f : V -> V) (d : dict V) :
  all_values P d -> (forall v, P v -> P (f v)) -> all_values P (dict_update k f d).
Proof.
  unfold all_values. intros Hd Hf. induction d as [|[k' v'] d IH]; simpl; [done|].
  inversion_clear Hd; simpl in *. case_decide; constructor; simpl; auto.
Qed.

Lemma all_values_get {V : Type} (P : V -> Prop) (k : string) (v : V) (d : dict V) :
  all_values P d -> Dict.get k d = Some v -> P v.
Proof.
  unfold all_values. intros Hd. induction d as [|[k' v'] d IH]; simpl; [done|].
  inversion_clear Hd; simpl in *. case_decide; [by intros [= <-]|auto].
Qed.

Lemma length_set_le {V : Type} (k : string) (v : V) (d : dict V) :
  (length (Dict.set k v d) <= S (length d))%nat.
Proof. induction d as [|[k' v'] d IH]; simpl; [lia|]. case_decide; simpl; lia. Qed.

Lemma length_set_present {V : Type} (k : string) (v w : V) (d : dict V) :
  Dict.get k d = Some w -> length (Dict.set k v d) = length d.
Proof.
  induction d as [|[k' v'] d IH]; simpl; [done|].
  case_decide; simpl; [done|]. intros H'. by rewrite IH.
Qed.

Lemma length_initial_calls (ms : list string) (acc : dict Z) :
  (length (foldl (fun mc m => Dict.set m 0%Z mc) acc ms) <= length acc + length ms)%nat.
Proof.
  revert acc. induction ms as [|m ms IH]; intros acc; simpl; [lia|].
  etrans; [apply IH|]. pose proof (length_set_le m 0 acc). lia.
Qed.

Lemma process_interface_parsed (node : InterfaceDeclaration) (path : string) (s : Analyzer) :
  all_values parsed_ok (interfaces (result s)) ->
  all_values parsed_ok (interfaces (result (_process_interface node path s))).
Proof.
  intros Hs. unfold _process_interface. simpl. apply all_values_set; [done|].
  split; simpl; [done|]. apply (length_initial_calls _ []).
Qed.

Lemma parse_file_parsed (env : Env) (path : string) (s : Analyzer) :
  all_values parsed_ok (interfaces (result s)) ->
  all_values parsed_ok (interfaces (result (_parse_file env path s))).
Proof.
  intros Hs. unfold _parse_file. destruct (parse env path) as [[inodes cnodes]|]; [|done].
  apply (foldl_invariant (fun s => all_values parsed_ok (interfaces (result s)))).
  - intros s' node _ Hs'. exact Hs'.
  - apply (foldl_invariant (fun s => all_values parsed_ok (interfaces (result s)))); [|done].
    intros s' node _. apply process_interface_parsed.
Qed.

Lemma find_implementations_parsed (s : Analyzer) :
  all_values parsed_ok (interfaces (result s)) ->
  all_values parsed_ok (interfaces (result (_find_implementations s)))
  /\ classes (result (_find_implementations s)) = classes (result s).
Proof.
  intros Hs. split; [|done]. unfold _find_implementations. simpl.
  apply (foldl_invariant (all_values parsed_ok)); [|done].
  intros d [class_name class_info] _ Hd.
  apply (foldl_invariant (all_values parsed_ok)); [|done].
  intros d' iface_name _ Hd'. destruct (Dict.mem iface_name d'); [|done].
  apply all_values_update; [done|]. by intros i [? ?].
Qed.

Lemma record_usage_resolved (env : Env) (class_names : list string)
    (class_name content iface_name : string) (d : dict InterfaceInfo) :
  class_name ∈ class_names ->
  all_values (resolved_ok class_names) d ->
  all_values (resolved_ok class_names) (record_usage env class_name content iface_name d).
Proof.
  intros Hc Hd. unfold record_usage. destruct (existsb _ _); [|done].
  apply all_values_update; [done|]. intros i (Hnd & Hsub & Hlen).
  case_decide as Hin; [done|]. split_and!; simpl; [| |done].
  - apply NoDup_app. split_and!; [done| |apply NoDup_singleton].
    intros x Hx Hx'. apply list_elem_of_singleton in Hx'. by subst.
  - intros x [Hx|Hx]%elem_of_app; [by apply Hsub|].
    apply list_elem_of_singleton in Hx. by subst.
Qed.

Lemma elem_of_keys {V : Type} (k : string) (v : V) (d : dict V) :
  (k, v) ∈ d -> k ∈ Dict.keys d.
Proof. intros H. unfold Dict.keys. apply list_elem_of_fmap. by exists (k, v). Qed.

Lemma find_usages_resolved (env : Env) (s : Analyzer) :
  all_values parsed_ok (interfaces (result s)) ->
  all_values (resolved_ok (Dict.keys (classes (result s))))
    (interfaces (result (_find_usages env s)))
  /\ classes (result (_find_usages env s)) = classes (result s).
Proof.
  intros Hs. split; [|done]. unfold _find_usages. simpl.
  set (class_names := Dict.keys (classes (result s))).
  apply (foldl_invariant (all_values (resolved_ok class_names))).
  - intros d [class_name class_info] Hc Hd.
    destruct (read_file env _) as [content|]; [|done].
    apply (foldl_invariant (all_values (resolved_ok class_names))); [|done].
    intros d' iface_name _. apply record_usage_resolved. by eapply elem_of_keys.
  - eapply Forall_impl; [exact Hs|]. intros [k i] [Hu Hl]; simpl in *.
    split_and!; [rewrite Hu; constructor|rewrite Hu; set_solver|done].
Qed.

Lemma for_each_invariant {A S : Type} (P : S -> Prop) (body : A -> S -> outcome S)
    (l : list A) :
  (forall x s, P s -> P (state_of (body x s))) ->
  forall s, P s -> P (state_of (for_each body l s)).
Proof.
  intros Hbody. induction l as [|x l IH]; intros s Hs; simpl; [done|].
  specialize (Hbody x s Hs). destruct (body x s) as [s'|s']; simpl in *; auto.
Qed.

Lemma count_calls_resolved (env : Env) (class_names : list string)
    (content method_name : string) (i : InterfaceInfo) :
  resolved_ok class_names i ->
  resolved_ok class_names (state_of (count_calls env content method_name i))
  /\ methods (state_of (count_calls env content method_name i)) = methods i.
Proof.
  intros (Hnd & Hsub & Hlen). unfold count_calls.
  destruct (Dict.get method_name (method_calls i)) as [count|] eqn:Hget; simpl; [|done].
  split; [|done]. split_and!; simpl; [done|done|].
  by erewrite length_set_present.
Qed.

Lemma count_calls_all_resolved (env : Env) (class_names : list string) (content : string)
    (d : dict InterfaceInfo) :
  all_values (resolved_ok class_names) d ->
  all_values (resolved_ok class_names) (state_of (count_calls_all env content d)).
Proof.
  unfold all_values. induction d as [|[k i] d IH]; intros Hd; simpl; [done|].
  inversion_clear Hd as [|? ? Hi Hd'].
  assert (Hi' : resolved_ok class_names
                  (state_of (for_each (count_calls env content) (methods i) i))).
  { apply (for_each_invariant (resolved_ok class_names)); [|done].
    intros m i' Hi'. by apply count_calls_resolved. }
  specialize (IH Hd').
  destruct (for_each _ _ i) as [i'|i']; simpl in *.
  - destruct (count_calls_all env content d) as [d'|d']; simpl in *; by constructor.
  - by constructor.
Qed.

Lemma analyze_method_calls_resolved (env : Env) (class_names : list string) (s : Analyzer) :
  all_values (resolved_ok class_names) (interfaces (result s)) ->
  all_values (resolved_ok class_names) (interfaces (result (_analyze_method_calls env s)))
  /\ classes (result (_analyze_method_calls env s)) = classes (result s).
Proof.
  intros Hs. split; [|done]. unfold _analyze_method_calls. simpl.
  apply (foldl_invariant (all_values (resolved_ok class_names))); [|done].
  intros d [class_name class_info] _ Hd.
  destruct (read_file env _) as [content|]; [|done].
  by apply count_calls_all_resolved.
Qed.

Lemma update_max_depth_spec (s : Analyzer) (n : string) :
  result (update_max_depth s n) = result s
  /\ max_call_depth s <= max_call_depth (update_max_depth s n)
  /\ _get_interface_depth (interfaces (result s)) n <= max_call_depth (update_max_depth s n).
Proof.
  unfold update_max_depth.
  destruct (Z.ltb_spec (max_call_depth s) (_get_interface_depth (interfaces (result s)) n));
    simpl; split_and!; (done || lia).
Qed.

Lemma calculate_call_depths_fold (names : list string) :
  forall s,
  result (foldl update_max_depth s names) = result s
  /\ max_call_depth s <= max_call_depth (foldl update_max_depth s names)
  /\ forall k, k ∈ names ->
       _get_interface_depth (interfaces (result s)) k
       <= max_call_depth (foldl update_max_depth s names).
Proof.
  induction names as [|n names IH]; intros s; simpl.
  - split_and!; [done|lia|]. intros k Hk. by apply elem_of_nil in Hk.
  - destruct (IH (update_max_depth s n)) as (Hres & Hmono & Hall).
    destruct (update_max_depth_spec s n) as (Hr & Hm & Hn). split_and!.
    + by rewrite Hres.
    + lia.
    + intros k Hk. apply elem_of_cons in Hk as [->|Hk]; [lia|].
      rewrite <- Hr. by apply Hall.
Qed.

Lemma calculate_call_depths_spec (s : Analyzer) :
  result (_calculate_call_depths s) = result s
  /\ max_call_depth s <= max_call_depth (_calculate_call_depths s)
  /\ forall k, k ∈ Dict.keys (interfaces (result s)) ->
       _get_interface_depth (interfaces (result s)) k
       <= max_call_depth (_calculate_call_depths s).
Proof. apply calculate_call_depths_fold. Qed.

(** Once the maximum covers every stored interface the pass changes
    nothing. *)
Lemma calculate_call_depths_fixed (names : list string) (s : Analyzer) :
  (forall k, k ∈ names ->
     _get_interface_depth (interfaces (result s)) k <= max_call_depth s) ->
  foldl update_max_depth s names = s.
Proof.
  induction names as [|n names IH]; intros Hall; simpl; [done|].
  assert (Hn : update_max_depth s n = s).
  { unfold update_max_depth.
    destruct (Z.ltb_spec (max_call_depth s) (_get_interface_depth (interfaces (result s)) n))
      as [Hlt|]; [|done].
    specialize (Hall n ltac:(by apply elem_of_cons; left)). lia. }
  rewrite Hn. apply IH. intros k Hk. apply Hall. by apply elem_of_cons; right.
Qed.

Lemma calculate_call_depths_idempotent (s : Analyzer) :
  _calculate_call_depths (_calculate_call_depths s) = _calculate_call_depths s.
Proof.
  destruct (calculate_call_depths_spec s) as (Hres & _ & Hall).
  unfold _calculate_call_depths at 1. apply calculate_call_depths_fixed.
  rewrite Hres. exact Hall.
Qed.

(** A stored interface has depth at least 1. *)
Lemma depth_stored_positive (ifaces : dict InterfaceInfo) (k : string) (i : InterfaceInfo) :
  Dict.get k ifaces = Some i -> 1 <= _get_interface_depth ifaces k.
Proof.
  intros Hget. unfold _get_interface_depth, depth_fuel. simpl.
  rewrite decide_False by set_solver. rewrite Hget.
  case_decide; [lia|].
  destruct (depth_loop_returns ifaces (get_interface_depth_fuel ifaces (length ifaces))
              (length ifaces) (extends i)
              (get_interface_depth_fuel_returns ifaces (length ifaces))
              (0, {[k]} ∪ ∅)) as (m & v' & -> & _ & Hm); simpl in *; [|lia].
  pose proof (unvisited_enter ifaces k i ∅ Hget ltac:(set_solver)).
  pose proof (unvisited_bound ifaces ∅). lia.
Qed.

Lemma analyze_ok (env : Env) (java_files : list string) (path : string) :
  analyzed_ok (analyze env java_files (init path)).
Proof.
  unfold analyze.
  set (s1 := foldl _ (init path) java_files).
  assert (H1 : all_values parsed_ok (interfaces (result s1))).
  { apply (foldl_invariant (fun s => all_values parsed_ok (interfaces (result s)))).
    - intros s file_path _. apply parse_file_parsed.
    - constructor. }
  destruct (find_implementations_parsed s1 H1) as [H2 C2].
  set (s2 := _find_implementations s1) in *.
  destruct (find_usages_resolved env s2 H2) as [H3 C3].
  set (s3 := _find_usages env s2) in *.
  rewrite <- C3 in H3.
  destruct (analyze_method_calls_resolved env _ s3 H3) as [H4 C4].
  set (s4 := _analyze_method_calls env s3) in *.
  rewrite <- C4 in H4.
  destruct (calculate_call_depths_spec s4) as (R5 & _ & D5).
  set (s5 := _calculate_call_depths s4) in *.
  unfold analyzed_ok. simpl. rewrite R5. split_and!; [done|done|].
  intros k Hk. by apply D5.
Qed.

Local Open Scope Q_scope.

Lemma ratio_unit (a b : Z) :
  (0 <= a <= b)%Z -> (0 < b)%Z ->
  0 <= inject_Z a / inject_Z b /\ inject_Z a / inject_Z b <= 1.
Proof.
  intros [Ha Hab] Hb.
  assert (0 < inject_Z b) as Hb' by (change 0 with (inject_Z 0); by rewrite <- Zlt_Qlt).
  assert (0 <= inject_Z a) as Ha' by (change 0 with (inject_Z 0); by rewrite <- Zle_Qle).
  assert (inject_Z a <= inject_Z b) as Hab' by (by rewrite <- Zle_Qle).
  split.
  - apply Qle_shift_div_l; [done|]. lra.
  - apply Qle_shift_div_r; [done|]. lra.
Qed.

Lemma unused_count_bound (mc : dict Z) :
  (0 <= unused_count mc <= Z.of_nat (length mc))%Z.
Proof. unfold unused_count. pose proof (length_filter (fun e : string * Z => e.2 = 0%Z) mc). lia. Qed.

(** The four sub-metrics and the score of a stored interface of an analyzed
    project lie in the unit interval. *)
Lemma metrics_unit (s : Analyzer) (interface_name : string) (i : InterfaceInfo) :
  analyzed_ok s -> Dict.get interface_name (interfaces (result s)) = Some i ->
  let m := metrics s interface_name i in
  (0 <= m_sir m /\ m_sir m <= 1) /\ (0 <= m_uur m /\ m_uur m <= 1)
  /\ (0 <= m_umr m /\ m_umr m <= 1) /\ (0 <= m_ncd m /\ m_ncd m <= 1)
  /\ (0 <= m_ipi m /\ m_ipi m <= 1).
Proof.
  intros (Hres & Htot & Hdepth) Hget m.
  destruct (all_values_get _ _ _ _ Hres Hget) as (Hnd & Hsub & Hlen).
  assert (Hsir : 0 <= m_sir m /\ m_sir m <= 1).
  { unfold m, metrics; simpl. destruct (Z.ltb_spec 0 (Z.of_nat (length (implementations i)))).
    - change 1 with (inject_Z 1) at 1. apply ratio_unit; lia.
    - lra. }
  assert (Huur : 0 <= m_uur m /\ m_uur m <= 1).
  { unfold m, metrics; simpl. apply ratio_unit; [|lia]. rewrite Htot. unfold Dict.len.
    assert (length (usages i) <= length (classes (result s)))%nat; [|lia].
    rewrite <- (length_fmap fst (classes (result s))).
    apply submseteq_length, NoDup_submseteq; [done|]. intros x Hx. by apply Hsub. }
  assert (Humr : 0 <= m_umr m /\ m_umr m <= 1).
  { unfold m, metrics; simpl. destruct (Z.ltb_spec 0 (Z.of_nat (length (methods i)))).
    - apply ratio_unit; [|lia]. pose proof (unused_count_bound (method_calls i)). lia.
    - lra. }
  assert (Hncd : 0 <= m_ncd m /\ m_ncd m <= 1).
  { unfold m, metrics; simpl. destruct (Z.ltb_spec 1 (max_call_depth s)).
    - apply ratio_unit; [|lia].
      pose proof (depth_stored_positive _ _ _ Hget).
      pose proof (Hdepth interface_name (get_Some_key _ _ _ Hget)). lia.
    - lra. }
  split_and!; try tauto.
  - unfold m, metrics in *; simpl in *. unfold ALPHA, BETA, GAMMA, DELTA. lra.
  - unfold m, metrics in *; simpl in *. unfold ALPHA, BETA, GAMMA, DELTA. lra.
Qed.

Local Close Scope Q_scope.

(** ** Where the walk of the code and the recursion of the specification agree *)

(** When no stored interface extends more than one interface the loop has
    at most one iteration, the shared visited-set is never seen by a
    sibling, and the two computations return the same depth: cycles and
    dangling targets included. *)
Lemma depth_agrees_single_parent_fuel (ifaces : dict InterfaceInfo) (fuel : nat) :
  single_parent ifaces ->
  forall iface_name visited,
    fst <$> get_interface_depth_fuel ifaces fuel iface_name visited
    = depth_reference_fuel ifaces fuel iface_name visited.
Proof.
  intros Hsingle. induction fuel as [|fuel IH]; intros n v; simpl; [done|].
  case_decide; [done|].
  destruct (Dict.get n ifaces) as [i|] eqn:Hget; [|done].
  case_decide as Hext; [done|].
  pose proof (all_values_get (fun i => (length (extends i) <= 1)%nat) _ _ _ Hsingle Hget)
    as Hlen.
  simpl in Hlen. destruct (extends i) as [|p [|q ps]]; simpl in *; [done| |lia].
  rewrite <- IH.
  destruct (get_interface_depth_fuel ifaces fuel p ({[n]} ∪ v)) as [[d v']|]; simpl; [|done].
  f_equal. lia.
Qed.

Lemma depth_agrees_single_parent (ifaces : dict InterfaceInfo) (iface_name : string) :
  single_parent ifaces ->
  _get_interface_depth ifaces iface_name = depth_reference ifaces iface_name.
Proof.
  intros Hsingle. unfold _get_interface_depth, depth_reference.
  rewrite <- (depth_agrees_single_parent_fuel ifaces _ Hsingle).
  by destruct (get_interface_depth_fuel _ _ _ _) as [[d v]|].
Qed.

(** ** The unused method rate when declared names are distinct *)

(** A property of single interfaces that the passes of [analyze] keep. *)
Lemma analyze_all_values (P : InterfaceInfo -> Prop) (env : Env)
    (java_files : list string) (path : string) :
  (forall node p s, all_values P (interfaces (result s)) ->
     all_values P (interfaces (result (_process_interface node p s)))) ->
  (forall i l, P i -> P (set_implementations l i)) ->
  (forall i l, P i -> P (set_usages l i)) ->
  (forall content m i, P i -> P (state_of (count_calls env content m i))) ->
  all_values P (interfaces (result (analyze env java_files (init path)))).
Proof.
  intros Hnew Himpl Huse Hcount. unfold analyze.
  set (s1 := foldl _ (init path) java_files).
  assert (H1 : all_values P (interfaces (result s1))).
  { apply (foldl_invariant (fun s => all_values P (interfaces (result s)))); [|constructor].
    intros s file_path _ Hs. unfold _parse_file.
    destruct (parse env file_path) as [[inodes cnodes]|]; [|done].
    apply (foldl_invariant (fun s => all_values P (interfaces (result s)))); [by intros|].
    apply (foldl_invariant (fun s => all_values P (interfaces (result s)))); [|done].
    intros s' node _. apply Hnew. }
  assert (H2 : all_values P (interfaces (result (_find_implementations s1)))).
  { unfold _find_implementations. simpl.
    apply (foldl_invariant (all_values P)); [|done].
    intros d [class_name class_info] _ Hd.
    apply (foldl_invariant (all_values P)); [|done].
    intros d' iface_name _ Hd'. destruct (Dict.mem iface_name d'); [|done].
    apply all_values_update; [done|]. intros i Hi. by apply Himpl. }
  set (s2 := _find_implementations s1) in *.
  assert (H3 : all_values P (interfaces (result (_find_usages env s2)))).
  { unfold _find_usages. simpl.
    apply (foldl_invariant (all_values P)); [|done].
    intros d [class_name class_info] _ Hd.
    destruct (read_file env _) as [content|]; [|done].
    apply (foldl_invariant (all_values P)); [|done].
    intros d' iface_name _ Hd'. unfold record_usage. destruct (existsb _ _); [|done].
    apply all_values_update; [done|]. intros i Hi. case_decide; [done|by apply Huse]. }
  set (s3 := _find_usages env s2) in *.
  assert (H4 : all_values P (interfaces (result (_analyze_method_calls env s3)))).
  { unfold _analyze_method_calls. simpl.
    apply (foldl_invariant (all_values P)); [|done].
    intros d [class_name class_info] _ Hd.
    destruct (read_file env _) as [content|]; [|done].
    clear -Hd Hcount. unfold all_values in *.
    induction d as [|[k i] d IH]; simpl; [done|].
    inversion_clear Hd as [|? ? Hi Hd'].
    assert (Hi' : P (state_of (for_each (count_calls env content) (methods i) i))).
    { apply (for_each_invariant P); [|done]. intros m i' Hi'. by apply Hcount. }
    specialize (IH Hd').
    destruct (for_each _ _ i) as [i'|i']; simpl in *.
    - destruct (count_calls_all env content d) as [d'|d']; simpl in *; by constructor.
    - by constructor. }
  set (s4 := _analyze_method_calls env s3) in *.
  destruct (calculate_call_depths_spec s4) as (R5 & _ & _).
  simpl. by rewrite R5.
Qed.

Lemma keys_set_absent {V : Type} (k : string) (v : V) (d : dict V) :
  k ∉ Dict.keys d -> Dict.keys (Dict.set k v d) = (Dict.keys d ++ [k])%list.
Proof.
  unfold Dict.keys. induction d as [|[k' v'] d IH]; simpl; [done|].
  intros Hk. apply not_elem_of_cons in Hk as [Hne Hk]. rewrite decide_False by done.
  change ((k' :: (Dict.set k v d).*1) = k' :: (d.*1 ++ [k])%list). by rewrite IH.
Qed.

Lemma keys_set_present {V : Type} (k : string) (v w : V) (d : dict V) :
  Dict.get k d = Some w -> Dict.keys (Dict.set k v d) = Dict.keys d.
Proof.
  unfold Dict.keys. induction d as [|[k' v'] d IH]; simpl; [done|].
  case_decide; [done|]. intros Hget.
  change ((k' :: (Dict.set k v d).*1) = k' :: d.*1). by rewrite IH.
Qed.

Lemma keys_initial_calls (ms : list string) (acc : dict Z) :
  NoDup (Dict.keys acc ++ ms)%list ->
  Dict.keys (foldl (fun mc m => Dict.set m 0 mc) acc ms) = (Dict.keys acc ++ ms)%list.
Proof.
  revert acc. induction ms as [|m ms IH]; intros acc Hnd; simpl.
  - by rewrite app_nil_r.
  - assert (Hm : m ∉ Dict.keys acc).
    { apply NoDup_app in Hnd as (_ & Hdisj & _). intros Hin.
      apply (Hdisj m Hin). by apply elem_of_cons; left. }
    rewrite IH; rewrite keys_set_absent by done.
    + by rewrite <- app_assoc.
    + by rewrite <- app_assoc.
Qed.

Lemma filter_agree (P Q : string -> Prop)
    `{!forall x, Decision (P x)} `{!forall x, Decision (Q x)} (l : list string) :
  (forall x, x ∈ l -> P x <-> Q x) -> filter P l = filter Q l.
Proof.
  induction l as [|x l IH]; intros Hagree; [done|].
  rewrite !filter_cons.
  rewrite IH by (intros y Hy; apply Hagree; by apply elem_of_cons; right).
  destruct (decide (P x)) as [HP|HP].
  - rewrite decide_True; [done|]. apply Hagree; [by apply elem_of_cons; left|done].
  - rewrite decide_False; [done|]. intros HQ. apply HP.
    apply Hagree; [by apply elem_of_cons; left|done].
Qed.

(** With one entry per key, counting the zero entries of the dictionary is
    counting the keys whose count is zero. *)
Lemma unused_count_keys (mc : dict Z) :
  NoDup (Dict.keys mc) ->
  unused_count mc
  = Z.of_nat (length (filter (fun m => Dict.get m mc = Some 0) (Dict.keys mc))).
Proof.
  unfold unused_count, Dict.keys. intros Hnd. f_equal.
  induction mc as [|[k v] mc IH]; [done|].
  change (((k, v) :: mc).*1) with (k :: mc.*1) in *.
  apply NoDup_cons in Hnd as [Hk Hnd]. specialize (IH Hnd).
  rewrite !filter_cons. simpl.
  rewrite (filter_agree (fun m => (if decide (m = k) then Some v else Dict.get m mc) = Some 0)
             (fun m => Dict.get m mc = Some 0)).
  - rewrite (decide_True (P := k = k)) by done.
    destruct (decide (v = 0)) as [->|Hv].
    + rewrite (decide_True (P := Some 0 = Some 0)) by done. simpl. by rewrite IH.
    + rewrite (decide_False (P := Some v = Some 0)) by congruence. done.
  - intros m Hm. rewrite decide_False; [done|]. by intros ->.
Qed.

Lemma analyze_counters_by_name (env : Env) (java_files : list string) (path : string) :
  all_values counters_by_name (interfaces (result (analyze env java_files (init path)))).
Proof.
  apply analyze_all_values.
  - intros node p s Hs. unfold _process_interface. simpl.
    apply all_values_set; [done|]. intros Hnd. simpl in *.
    by rewrite (keys_initial_calls _ []).
  - done.
  - done.
  - intros content m i Hi. unfold count_calls.
    destruct (Dict.get m (method_calls i)) as [c|] eqn:Hget; simpl; [|done].
    intros Hnd. simpl in *. rewrite <- (Hi Hnd). by eapply keys_set_present.
Qed.

(** For an analyzed interface whose declared method names are distinct the
    code computes the unused method rate of the formula. *)
Lemma umr_distinct_names (env : Env) (java_files : list string) (path : string)
    (interface_name : string) (i : InterfaceInfo) :
  let s := analyze env java_files (init path) in
  Dict.get interface_name (interfaces (result s)) = Some i ->
  NoDup (methods i) ->
  m_umr (metrics s interface_name i) = umr_declared (methods i) (method_calls i).
Proof.
  intros s Hget Hnd.
  pose proof (all_values_get _ _ _ _ (analyze_counters_by_name env java_files path) Hget Hnd)
    as Hkeys.
  unfold metrics, umr_declared; simpl.
  rewrite unused_count_keys by (by rewrite Hkeys). by rewrite Hkeys.
Qed.

(** ** Rounding *)

Local Open Scope Q_scope.

Lemma floor_bounds (x : Q) : inject_Z (Qfloor x) <= x /\ x < inject_Z (Qfloor x) + 1.
Proof.
  split; [apply Qfloor_le|].
  pose proof (Qlt_floor x) as H. by rewrite inject_Z_plus in H.
Qed.

Lemma round_half_even_floor (x : Q) :
  round_half_even x = Qfloor x \/ round_half_even x = (Qfloor x + 1)%Z.
Proof.
  unfold round_half_even. destruct (Qcompare _ _); [destruct (Z.even _)|..]; auto.
Qed.

(** Strictly within a half of an integer, rounding gives that integer. *)
Lemma round_half_even_near (k : Z) (x : Q) :
  inject_Z k - 0.5 < x -> x < inject_Z k + 0.5 -> round_half_even x = k.
Proof.
  intros Hlo Hhi. destruct (floor_bounds x) as [Hf1 Hf2].
  set (n := Qfloor x) in *.
  assert (Hn : (n = k \/ n = k - 1)%Z).
  { assert (inject_Z n < inject_Z (k + 1)) as H1
      by (rewrite inject_Z_plus; change (inject_Z 1) with 1; lra).
    assert (inject_Z (k + -1) < inject_Z (n + 1)) as H2.
    { rewrite !inject_Z_plus. change (inject_Z 1) with 1.
      change (inject_Z (-1)) with (-1). lra. }
    rewrite <- Zlt_Qlt in H1, H2. lia. }
  unfold round_half_even. fold n.
  destruct Hn as [->| ->].
  - assert (Qcompare (x - inject_Z k) (1 # 2) = Lt) as -> by (apply -> Qlt_alt; lra).
    done.
  - assert (Qcompare (x - inject_Z (k - 1)) (1 # 2) = Gt) as ->.
    { apply -> Qgt_alt. change (k - 1)%Z with (k + -1)%Z. rewrite inject_Z_plus.
      change (inject_Z (-1)) with (-1). lra. }
    lia.
Qed.

(** More than a half above an integer, rounding goes past it. *)
Lemma round_half_even_above (k : Z) (x : Q) :
  inject_Z k + 0.5 < x -> (k + 1 <= round_half_even x)%Z.
Proof.
  intros Hlo. destruct (floor_bounds x) as [Hf1 Hf2].
  assert (Hk : (k <= Qfloor x)%Z).
  { rewrite <- (Qfloor_Z k). apply Qfloor_resp_le. lra. }
  destruct (Z.eq_dec (Qfloor x) k) as [Heq|Hne].
  - unfold round_half_even. rewrite Heq.
    assert (Qcompare (x - inject_Z k) (1 # 2) = Gt) as -> by (apply -> Qgt_alt; lra).
    lia.
  - destruct (round_half_even_floor x) as [-> | ->]; lia.
Qed.

Lemma round_half_even_between (a b : Z) (x : Q) :
  inject_Z a <= x -> x <= inject_Z b -> (a <= round_half_even x <= b)%Z.
Proof.
  intros Hlo Hhi. destruct (floor_bounds x) as [Hf1 Hf2].
  assert (Ha : (a <= Qfloor x)%Z).
  { rewrite <- (Qfloor_Z a). by apply Qfloor_resp_le. }
  assert (Hb : (Qfloor x <= b)%Z).
  { rewrite <- (Qfloor_Z b). by apply Qfloor_resp_le. }
  destruct (Z.eq_dec (Qfloor x) b) as [Heq|Hne].
  - rewrite (round_half_even_near b x); [lia| |]; rewrite Heq in *; lra.
  - destruct (round_half_even_floor x) as [-> | ->]; lia.
Qed.

(** Rounding to three decimals keeps a value in the unit interval. *)
Lemma round3_unit (x : Q) : 0 <= x /\ x <= 1 -> 0 <= round3 x /\ round3 x <= 1.
Proof.
  intros [H0 H1]. unfold round3.
  destruct (round_half_even_between 0 1000 (x * 1000)) as [Ha Hb].
  - change (inject_Z 0) with 0. lra.
  - change (inject_Z 1000) with 1000. lra.
  - unfold Qle. simpl. lia.
Qed.

(** Every exact value strictly between 0.6995 and 0.7005 is shown as 0.700. *)
Lemma round3_to_700 (x : Q) : 0.6995 < x -> x < 0.7005 -> round3 x = 0.700.
Proof.
  intros Hlo Hhi. unfold round3.
  rewrite (round_half_even_near 700 (x * 1000)); [done| |];
    change (inject_Z 700) with 700; lra.
Qed.

Lemma round3_above_700 (x : Q) : 0.7005 < x -> 0.7 < round3 x.
Proof.
  intros Hlo. unfold round3.
  pose proof (round_half_even_above 700 (x * 1000)) as H.
  specialize (H ltac:(change (inject_Z 700) with 700; lra)).
  unfold Qlt. simpl. lia.
Qed.

Local Close Scope Q_scope.

(** ** Scoring of an analyzed project *)

Local Open Scope Q_scope.

(** C6: for every interface of a project run through ingestion and
    resolution, SIR, UUR, UMR and NCD lie in [0,1]; the default weights sum
    to 1 and the IPI lies in [0,1]; the same holds of the rounded values
    the record carries. *)
Theorem metrics_within_unit_interval (env : Env) (java_files : list string) (path : string)
    (interface_name : string) (r : IpiRecord) :
  let s := analyze env java_files (init path) in
  (calculate_ipi interface_name s).1 = Some r ->
  exists i, Dict.get interface_name (interfaces (result s)) = Some i
    /\ r = to_record interface_name (metrics s interface_name i)
    /\ ALPHA + BETA + GAMMA + DELTA == 1
    /\ (let m := metrics s interface_name i in
        (0 <= m_sir m /\ m_sir m <= 1) /\ (0 <= m_uur m /\ m_uur m <= 1)
        /\ (0 <= m_umr m /\ m_umr m <= 1) /\ (0 <= m_ncd m /\ m_ncd m <= 1)
        /\ (0 <= m_ipi m /\ m_ipi m <= 1))
    /\ (0 <= r_SIR r /\ r_SIR r <= 1) /\ (0 <= r_UUR r /\ r_UUR r <= 1)
    /\ (0 <= r_UMR r /\ r_UMR r <= 1) /\ (0 <= r_NCD r /\ r_NCD r <= 1)
    /\ (0 <= r_IPI r /\ r_IPI r <= 1).
Proof.
  intros s Hr. unfold calculate_ipi in Hr.
  destruct (Dict.get interface_name (interfaces (result s))) as [i|] eqn:Hget; [|done].
  simpl in Hr. injection Hr as <-. exists i.
  destruct (metrics_unit s interface_name i (analyze_ok env java_files path) Hget)
    as (Hsir & Huur & Humr & Hncd & Hipi).
  split_and!; try done; simpl; by apply round3_unit.
Qed.

Lemma metrics_within_unit_interval_witness :
  exists r, (calculate_ipi "I" chain_project).1 = Some r
            /\ 0 <= r_IPI r /\ r_IPI r <= 1.
Proof.
  exists (mkIpiRecord "I" 2 0.500 1 0.143 3 2 0.667 5 0.800 0.700).
  assert (Hr : (calculate_ipi "I" chain_project).1
               = Some (mkIpiRecord "I" 2 0.500 1 0.143 3 2 0.667 5 0.800 0.700))
    by (vm_compute; reflexivity).
  split; [exact Hr|].
  destruct (metrics_within_unit_interval chain_env chain_files "chain" "I" _ Hr)
    as (i & _ & _ & _ & _ & _ & _ & _ & _ & Hipi).
  exact Hipi.
Defined.

(** ** The poisoning level of a score *)

Local Close Scope Q_scope.

Lemma band_table (k : Z) :
  0 <= k <= 1000 ->
  let r := (float_of_Z k / 1000)%float in
  is_high_double r = (700 <? k)
  /\ is_medium_double r = ((400 <=? k) && (k <=? 700))
  /\ is_low_double r = (k <? 400)
  /\ PrimFloat.eqb r r = true.
Proof.
  intros Hk r.
  assert (Hall : forallb bands_agree (seqZ 0 1001) = true) by (vm_compute; reflexivity).
  rewrite forallb_forall in Hall.
  specialize (Hall k). unfold bands_agree in Hall. fold r in Hall.
  rewrite !andb_true_iff in Hall.
  destruct Hall as [[[Hh Hm] Hl] Hr].
  { apply list_elem_of_In, elem_of_seqZ. lia. }
  apply Bool.eqb_prop in Hh, Hm, Hl. done.
Qed.

Local Open Scope Q_scope.

Lemma round_half_even_below (k : Z) (x : Q) :
  x < inject_Z k - 0.5 -> (round_half_even x <= k - 1)%Z.
Proof.
  intros Hhi. destruct (floor_bounds x) as [Hf1 Hf2].
  assert (Hk : (Qfloor x < k)%Z).
  { rewrite Zlt_Qlt. lra. }
  destruct (Z.eq_dec (Qfloor x) (k - 1)%Z) as [Heq|Hne].
  - unfold round_half_even. rewrite Heq in *.
    assert (Qcompare (x - inject_Z (k - 1)) (1 # 2) = Lt) as ->; [|lia].
    apply -> Qlt_alt. unfold Zminus. rewrite inject_Z_plus.
    change (inject_Z (- (1))) with (-1). lra.
  - destruct (round_half_even_floor x) as [-> | ->]; lia.
Qed.

Lemma round3_to_400 (x : Q) : 0.3995 < x -> x < 0.4005 -> round3 x = 0.400.
Proof.
  intros Hlo Hhi. unfold round3.
  rewrite (round_half_even_near 400 (x * 1000)); [done| |];
    change (inject_Z 400) with 400; lra.
Qed.

Lemma round3_below_400 (x : Q) : x < 0.3995 -> round3 x < 0.4.
Proof.
  intros Hhi. unfold round3.
  pose proof (round_half_even_below 400 (x * 1000)) as H.
  specialize (H ltac:(change (inject_Z 400) with 400; lra)).
  unfold Qlt. simpl. lia.
Qed.

(** The double [round(x, 3)] returns for a double [f] that stands for a
    rational [x] of the unit interval, and its level, by the thousandths of
    the rounded decimal. *)
Lemma round3_double_unit (f : float) (x : Q) :
  Q_of_float f = Some x -> 0 <= x -> x <= 1 ->
  let k := round_half_even (x * 1000) in
  (0 <= k <= 1000)%Z
  /\ PrimFloat.eqb (round3_double f) (float_of_Z k / 1000) = true
  /\ is_high_double (round3_double f) = (700 <? k)%Z
  /\ is_medium_double (round3_double f) = ((400 <=? k)%Z && (k <=? 700)%Z)
  /\ is_low_double (round3_double f) = (k <? 400)%Z.
Proof.
  intros Hf H0 H1 k.
  assert (Hk : (0 <= k <= 1000)%Z).
  { apply round_half_even_between.
    - change (inject_Z 0) with 0. lra.
    - change (inject_Z 1000) with 1000. lra. }
  split; [exact Hk|].
  unfold Q_of_float in Hf. unfold round3_double.
  destruct (Prim2SF f) as [b| | |b m e]; try discriminate.
  - injection Hf as <-. by destruct b; vm_compute.
  - cbv zeta in Hf. injection Hf as Hx.
    assert (Hq : 0 < inject_Z (Z.pos m) * 2 ^ e).
    { apply Qmult_lt_0_compat.
      - change 0 with (inject_Z 0). rewrite <- Zlt_Qlt. lia.
      - by apply Qpower_0_lt. }
    destruct b.
    { exfalso. rewrite <- Hx in H0. lra. }
    cbv zeta. rewrite Hx. fold k.
    assert (Hsmall : (k <? 2 ^ 53)%Z = true).
    { apply Z.ltb_lt. assert (1000 < 2 ^ 53)%Z by (vm_compute; reflexivity). lia. }
    rewrite Hsmall.
    destruct (band_table k Hk) as (Hh & Hm & Hl & Hr). done.
Qed.

(** C2, as stated, fails.  For the interface Svc of the wide project the
    code computes 0.7000001, the value of exact arithmetic too, and for the
    interface I of the chain project 0.7002380952380951, both above 0.7;
    the record of each carries 0.7 and is counted MEDIUM, not HIGH. *)
Lemma band_ignores_exact_value :
  (exists i r, Dict.get "Svc" (interfaces (result wide_project)) = Some i
     /\ m_ipi (metrics wide_project "Svc" i) == 0.7000001
     /\ PrimFloat.eqb (ipi_double wide_project "Svc" i) 0.7000001 = true
     /\ PrimFloat.ltb 0.7 (ipi_double wide_project "Svc" i) = true
     /\ IPI_double "Svc" wide_project = Some r
     /\ PrimFloat.eqb r 0.7 = true
     /\ is_high_double r = false /\ is_medium_double r = true)
  /\ (exists i r, Dict.get "I" (interfaces (result chain_project)) = Some i
     /\ m_ipi (metrics chain_project "I" i) == 2941 # 4200
     /\ PrimFloat.eqb (ipi_double chain_project "I" i) 0.7002380952380951 = true
     /\ PrimFloat.ltb 0.7 (ipi_double chain_project "I" i) = true
     /\ IPI_double "I" chain_project = Some r
     /\ PrimFloat.eqb r 0.7 = true
     /\ is_high_double r = false /\ is_medium_double r = true).
Proof.
  split.
  - eexists _, _. split; [vm_compute; reflexivity|].
    split_and!; vm_compute; done.
  - eexists _, _. split; [vm_compute; reflexivity|].
    split_and!; vm_compute; done.
Qed.

Lemma Qle_bool_false (x y : Q) : Qle_bool x y = false <-> y < x.
Proof.
  rewrite <- not_true_iff_false, Qle_bool_iff. split; [apply Qnot_le_lt|apply Qlt_not_le].
Qed.

(** C2, amended: the level of an interface is decided by the IPI its
    record carries, the double the code computes rounded to three decimals
    by [round].  Let [x] be the value that double stands for, in the unit
    interval.  The record carries the double nearest to [x] rounded to
    three decimals, ties to even; HIGH is a rounded IPI above 0.7, MEDIUM
    one from 0.4 to 0.7, LOW one below 0.4, and exactly one of them holds;
    a rounded IPI of 0.7 is MEDIUM and not HIGH, one of 0.4 is MEDIUM and
    not LOW.  A computed value strictly between 0.7 and 0.7005 is rounded
    to 0.7 and is MEDIUM, one above 0.7005 is HIGH; one strictly between
    0.3995 and 0.4 is rounded to 0.4 and is MEDIUM, one below 0.3995 is
    LOW. *)
Theorem severity_band_of_rounded_ipi (s : Analyzer) (interface_name : string)
    (i : InterfaceInfo) (x : Q) :
  Dict.get interface_name (interfaces (result s)) = Some i ->
  Q_of_float (ipi_double s interface_name i) = Some x ->
  0 <= x -> x <= 1 ->
  exists r, IPI_double interface_name s = Some r
    /\ PrimFloat.eqb r (float_of_Z (round_half_even (x * 1000)) / 1000) = true
    /\ (is_high_double r = true <-> 0.7 < round3 x)
    /\ (is_medium_double r = true <-> 0.4 <= round3 x /\ round3 x <= 0.7)
    /\ (is_low_double r = true <-> round3 x < 0.4)
    /\ ((is_high_double r = true /\ is_medium_double r = false /\ is_low_double r = false)
        \/ (is_high_double r = false /\ is_medium_double r = true /\ is_low_double r = false)
        \/ (is_high_double r = false /\ is_medium_double r = false /\ is_low_double r = true))
    /\ (round3 x == 0.7 -> is_medium_double r = true /\ is_high_double r = false)
    /\ (round3 x == 0.4 -> is_medium_double r = true /\ is_low_double r = false)
    /\ (0.7 < x /\ x < 0.7005 -> is_medium_double r = true /\ is_high_double r = false)
    /\ (0.7005 < x -> is_high_double r = true)
    /\ (0.3995 < x /\ x < 0.4 -> is_medium_double r = true /\ is_low_double r = false)
    /\ (x < 0.3995 -> is_low_double r = true).
Proof.
  intros Hget Hx H0 H1.
  exists (round3_double (ipi_double s interface_name i)).
  unfold IPI_double. rewrite Hget. split; [done|].
  destruct (round3_double_unit _ x Hx H0 H1) as (Hk & Heq & Hh & Hm & Hl).
  set (r := round3_double (ipi_double s interface_name i)) in *.
  set (k := round_half_even (x * 1000)) in *.
  assert (Hhigh : is_high_double r = true <-> 0.7 < round3 x).
  { rewrite Hh, Z.ltb_lt. unfold round3. fold k. unfold Qlt. simpl. lia. }
  assert (Hmed : is_medium_double r = true <-> 0.4 <= round3 x /\ round3 x <= 0.7).
  { rewrite Hm, andb_true_iff, !Z.leb_le. unfold round3. fold k. unfold Qle. simpl. lia. }
  assert (Hlow : is_low_double r = true <-> round3 x < 0.4).
  { rewrite Hl, Z.ltb_lt. unfold round3. fold k. unfold Qlt. simpl. lia. }
  assert (Hnot : forall b : bool, b = false <-> ~ b = true)
    by (intros b; symmetry; apply not_true_iff_false).
  split; [exact Heq|]. split_and!; try done.
  - rewrite Hh, Hm, Hl.
    destruct (Z.ltb_spec 700 k), (Z.leb_spec 400 k), (Z.leb_spec k 700), (Z.ltb_spec k 400);
      simpl; auto; lia.
  - intros H7. split; [apply Hmed; lra|]. apply Hnot. rewrite Hhigh. lra.
  - intros H4. split; [apply Hmed; lra|]. apply Hnot. rewrite Hlow. lra.
  - intros [Hlo Hhi]. rewrite Hnot, Hhigh, Hmed, (round3_to_700 x) by lra.
    split; [split|]; unfold Qle, Qlt; simpl; lia.
  - intros Hlo. apply Hhigh. by apply round3_above_700.
  - intros [Hlo Hhi]. rewrite Hnot, Hlow, Hmed, (round3_to_400 x) by lra.
    split; [split|]; unfold Qle, Qlt; simpl; lia.
  - intros Hhi. apply Hlow. by apply round3_below_400.
Qed.

Lemma severity_band_of_rounded_ipi_witness :
  exists i x r, Dict.get "I" (interfaces (result chain_project)) = Some i
    /\ Q_of_float (ipi_double chain_project "I" i) = Some x
    /\ IPI_double "I" chain_project = Some r
    /\ is_medium_double r = true /\ is_high_double r = false.
Proof.
  eexists _, _.
  assert (Hget : Dict.get "I" (interfaces (result chain_project))
                 = Some (mkInterfaceInfo "I" "I.java" ["m1"; "m2"; "m3"] ["C1"; "C2"] ["C1"]
                           [("m1", 0%Z); ("m2", 0%Z); ("m3", 1%Z)] ["J1"]))
    by (vm_compute; reflexivity).
  assert (Hx : Q_of_float (ipi_double chain_project "I"
                 (mkInterfaceInfo "I" "I.java" ["m1"; "m2"; "m3"] ["C1"; "C2"] ["C1"]
                    [("m1", 0%Z); ("m2", 0%Z); ("m3", 1%Z)] ["J1"]))
               = Some (6307184049569822 # 9007199254740992))
    by (vm_compute; reflexivity).
  destruct (severity_band_of_rounded_ipi chain_project "I" _ _ Hget Hx)
    as (r & Hr & _ & _ & _ & _ & _ & _ & _ & Hnear & _).
  - vm_compute. discriminate.
  - vm_compute. discriminate.
  - exists r. split; [exact Hget|]. split; [exact Hx|]. split; [exact Hr|].
    apply Hnear. vm_compute. split; reflexivity.
Defined.

(** Where exact arithmetic meets a tie the doubles decide.  With two of 25
    classes referring to T the exact score is 0.7005; the code computes
    0.7005000000000001 and the record carries 0.701, HIGH.  With 23 of 25
    and Top above T the exact score is 0.3995; the code computes
    0.39949999999999997 and the record carries 0.399, LOW. *)
Lemma score_at_rounding_ties :
  (exists i r, Dict.get "T" (interfaces (result (tie_project 2 false))) = Some i
     /\ m_ipi (metrics (tie_project 2 false) "T" i) == 0.7005
     /\ IPI_double "T" (tie_project 2 false) = Some r
     /\ PrimFloat.eqb r 0.701 = true /\ is_high_double r = true)
  /\ (exists i r, Dict.get "T" (interfaces (result (tie_project 23 true))) = Some i
     /\ m_ipi (metrics (tie_project 23 true) "T" i) == 0.3995
     /\ IPI_double "T" (tie_project 23 true) = Some r
     /\ PrimFloat.eqb r 0.399 = true /\ is_low_double r = true).
Proof.
  split.
  - eexists _, _. split; [vm_compute; reflexivity|].
    split_and!; vm_compute; done.
  - eexists _, _. split; [vm_compute; reflexivity|].
    split_and!; vm_compute; done.
Qed.

(** C5: an interface that declares the overloaded method [area] twice and
    is never called has two unused declarations out of two, an unused
    method rate of 1 by the formula; the code counts the names of the
    call-count dictionary, finds one, and reports 0.5. *)
Theorem umr_overloaded_methods :
  exists i r, Dict.get "Shape" (interfaces (result overload_project)) = Some i
    /\ (calculate_ipi "Shape" overload_project).1 = Some r
    /\ methods i = ["area"; "area"] /\ method_calls i = [("area", 0%Z)]
    /\ r_total_methods r = 2%Z /\ r_unused_methods r = 1%Z
    /\ m_umr (metrics overload_project "Shape" i) == 0.5
    /\ r_UMR r = 0.500
    /\ umr_declared (methods i) (method_calls i) == 1.
Proof.
  eexists _, _. split; [vm_compute; reflexivity|]. split; [vm_compute; reflexivity|].
  split_and!; vm_compute; done.
Qed.

Local Close Scope Q_scope.

(** C4: a class whose implements-list names I twice is appended twice to
    the implementations of I, and running the derivation pass a second time
    on an analyzed project appends the class of a single implementation
    again. *)
Theorem implementations_counted_twice :
  implementations <$> Dict.get "I" (interfaces (result (analyze twice_env ["C.java"] (init "twice"))))
    = Some ["C"; "C"]
  /\ implementations <$> Dict.get "I" (interfaces (result (analyze once_env ["C.java"] (init "once"))))
     = Some ["C"]
  /\ implementations <$>
       Dict.get "I" (interfaces (result
         (_find_implementations (analyze once_env ["C.java"] (init "once")))))
     = Some ["C"; "C"].
Proof. vm_compute. done. Qed.

(** ** Queries do not change the analyzer *)

(** A query hands the analyzer back as it received it. *)
Lemma calculate_ipi_state (interface_name : string) (s : Analyzer) :
  (calculate_ipi interface_name s).2 = s.
Proof. unfold calculate_ipi. by destruct (Dict.get interface_name _). Qed.

Lemma collect_results_state (names : list string) (s : Analyzer) :
  (collect_results names s).2 = s.
Proof.
  induction names as [|n names IH]; simpl; [done|].
  pose proof (calculate_ipi_state n s) as Hq.
  destruct (calculate_ipi n s) as [o s1]. simpl in Hq. subst s1.
  destruct (collect_results names s) as [rs s2]. by simpl in *.
Qed.

Lemma key_is_Some {V : Type} (k : string) (d : dict V) :
  k ∈ Dict.keys d <-> is_Some (Dict.get k d).
Proof.
  unfold Dict.keys. induction d as [|[k' v] d IH]; simpl.
  - split; [intros H; by apply elem_of_nil in H|by intros [? ?]].
  - rewrite elem_of_cons. case_decide; [subst; split; eauto|].
    rewrite IH. split; [by intros [?|?]|by right].
Qed.

(** A stored name gets a record that carries the name. *)
Lemma calculate_ipi_stored (interface_name : string) (s : Analyzer) :
  interface_name ∈ Dict.keys (interfaces (result s)) ->
  exists r, (calculate_ipi interface_name s).1 = Some r /\ r_interface r = interface_name.
Proof.
  intros [i Hi]%key_is_Some. unfold calculate_ipi. rewrite Hi. simpl. eauto.
Qed.

(** C9: a query returns the analyzer as it received it, so a second query
    on the state the first one left gives the same record; the same holds
    of the loop that queries every stored interface in turn; and the depth
    pass, run again on the state it produced, leaves the maximum depth and
    everything else as they are. *)
Theorem calculate_ipi_repeatable (s : Analyzer) (interface_name : string) (names : list string) :
  (calculate_ipi interface_name s).2 = s
  /\ (calculate_ipi interface_name (calculate_ipi interface_name s).2).1
     = (calculate_ipi interface_name s).1
  /\ (collect_results names s).2 = s
  /\ (collect_results names (collect_results names s).2).1 = (collect_results names s).1
  /\ (calculate_ipi interface_name (collect_results names s).2).1
     = (calculate_ipi interface_name s).1
  /\ _calculate_call_depths (_calculate_call_depths s) = _calculate_call_depths s.
Proof.
  split_and!; try by rewrite ?calculate_ipi_state, ?collect_results_state.
  apply calculate_call_depths_idempotent.
Qed.

(** C10: a name that is not a key of the interface store gets [None], a
    stored name gets a record, carrying that name; in both cases nothing is
    raised and the analyzer is unchanged. *)
Theorem calculate_ipi_none_iff_absent (s : Analyzer) (interface_name : string) :
  ((calculate_ipi interface_name s).1 = None
     <-> interface_name ∉ Dict.keys (interfaces (result s)))
  /\ (interface_name ∈ Dict.keys (interfaces (result s))
      <-> exists r, (calculate_ipi interface_name s).1 = Some r /\ r_interface r = interface_name)
  /\ (calculate_ipi interface_name s).2 = s.
Proof.
  split_and!; [| |apply calculate_ipi_state].
  - rewrite key_is_Some. unfold calculate_ipi.
    destruct (Dict.get interface_name _); simpl; split; try done.
    intros H. destruct H. eauto.
  - split; [apply calculate_ipi_stored|].
    intros (r & Hr & _). apply key_is_Some. unfold calculate_ipi in Hr.
    destruct (Dict.get interface_name _); [eauto|done].
Qed.

(** ** The ranking *)

Section SortDesc.
Context {A : Type} (key : A -> Q).

Lemma insert_desc_perm (x : A) (l : list A) : insert_desc key x l ≡ₚ x :: l.
Proof.
  induction l as [|y l IH]; simpl; [done|].
  destruct (Qle_bool (key y) (key x)); [done|].
  rewrite IH. apply Permutation_swap.
Qed.


Lemma insert_desc_Forall (P : A -> Prop) (x : A) (l : list A) :
  P x -> Forall P l -> Forall P (insert_desc key x l).
Proof. intros Hx Hl. by rewrite insert_desc_perm; constructor. Qed.

Lemma insert_desc_sorted (x : A) (l : list A) :
  StronglySorted (key_ge key) l -> StronglySorted (key_ge key) (insert_desc key x l).
Proof.
  induction 1 as [|y l Hl IH Hy]; simpl.
  - repeat constructor.
  - destruct (Qle_bool (key y) (key x)) eqn:Hle.
    + apply Qle_bool_iff in Hle. constructor; [by constructor|].
      constructor; [done|]. eapply Forall_impl; [exact Hy|].
      intros z Hz. unfold key_ge in *. by apply Qle_trans with (key y).
    + apply Qle_bool_false in Hle. constructor; [done|].
      apply insert_desc_Forall; [|done]. unfold key_ge. by apply Qlt_le_weak.
Qed.

Lemma sort_desc_sorted (l : list A) : StronglySorted (key_ge key) (sort_desc key l).
Proof.
  induction l as [|x l IH]; simpl; [constructor|]. by apply insert_desc_sorted.
Qed.

(** Inserting moves the new element past strictly larger keys only. *)
Lemma insert_desc_with_key (q : Q) (x : A) (l : list A) :
  with_key key q (insert_desc key x l) = with_key key q (x :: l).
Proof.
  unfold with_key. induction l as [|y l IH]; simpl; [done|].
  destruct (Qle_bool (key y) (key x)) eqn:Hle; [done|].
  apply Qle_bool_false in Hle. simpl. rewrite IH. simpl.
  destruct (Qeq_bool (key y) q) eqn:Hy; [|done].
  destruct (Qeq_bool (key x) q) eqn:Hx; [|done].
  apply Qeq_bool_iff in Hy, Hx. rewrite Hy, Hx in Hle. by apply Qlt_irrefl in Hle.
Qed.

Lemma sort_desc_with_key (q : Q) (l : list A) :
  with_key key q (sort_desc key l) = with_key key q l.
Proof.
  induction l as [|x l IH]; simpl; [done|].
  rewrite insert_desc_with_key. unfold with_key in *. simpl. by rewrite IH.
Qed.
(** A descending list is determined by its elements of each key, taken in
    order: the sort is the only stable descending arrangement. *)
Lemma descending_stable_unique (l1 l2 : list A) :
  StronglySorted (key_ge key) l1 -> StronglySorted (key_ge key) l2 ->
  (forall q, with_key key q l1 = with_key key q l2) -> l1 = l2.
Proof.
  intros H1. revert l2. induction H1 as [|x l1 Hs1 IH Hx]; intros l2 H2 Hkeys.
  - destruct l2 as [|y l2]; [done|]. specialize (Hkeys (key y)).
    unfold with_key in Hkeys. simpl in Hkeys. by rewrite Qeq_bool_refl in Hkeys.
  - destruct H2 as [|y l2 Hs2 Hy].
    { specialize (Hkeys (key x)). unfold with_key in Hkeys. simpl in Hkeys.
      by rewrite Qeq_bool_refl in Hkeys. }
    assert (Hin : forall (a : A) (l l' : list A),
              with_key key (key a) l = with_key key (key a) l' -> In a l -> In a l').
    { intros a l l' Heq Ha.
      assert (In a (with_key key (key a) l)) as Ha'
        by (apply filter_In; split; [done|apply Qeq_bool_refl]).
      rewrite Heq in Ha'. by apply filter_In in Ha' as [? _]. }
    assert (Hxy : (key x == key y)%Q).
    { apply Qle_antisym.
      - pose proof (Hin x (x :: l1) (y :: l2) (Hkeys (key x)) (or_introl eq_refl)) as [->|Hx2];
          [apply Qle_refl|].
        rewrite Forall_forall in Hy. apply Hy. by apply list_elem_of_In.
      - pose proof (Hin y (y :: l2) (x :: l1) (eq_sym (Hkeys (key y))) (or_introl eq_refl))
          as [->|Hy1]; [apply Qle_refl|].
        rewrite Forall_forall in Hx. apply Hx. by apply list_elem_of_In. }
    assert (x = y) as <-.
    { specialize (Hkeys (key x)). unfold with_key in Hkeys. simpl in Hkeys.
      rewrite Qeq_bool_refl in Hkeys.
      assert (Qeq_bool (key y) (key x) = true) as Hyx
        by (apply Qeq_bool_iff; by symmetry).
      rewrite Hyx in Hkeys. by injection Hkeys. }
    f_equal. apply IH; [done|]. intros q. specialize (Hkeys q).
    unfold with_key in *. simpl in Hkeys.
    destruct (Qeq_bool (key x) q); [by injection Hkeys|done].
Qed.

Lemma sort_desc_unique (l sorted : list A) :
  StronglySorted (key_ge key) sorted ->
  (forall q, with_key key q sorted = with_key key q l) ->
  sorted = sort_desc key l.
Proof.
  intros Hs Hkeys. apply descending_stable_unique; [done|apply sort_desc_sorted|].
  intros q. by rewrite sort_desc_with_key.
Qed.
End SortDesc.



(** * Further properties of the pipeline and the report *)

(** * Further properties of the store and of the passes *)

(** ** Lookup and update of dictionaries *)

Lemma get_set_eq {V : Type} (k : string) (v : V) (d : dict V) :
  Dict.get k (Dict.set k v d) = Some v.
Proof.
  induction d as [|[k' v'] d IH]; simpl.
  - by rewrite decide_True.
  - destruct (decide (k = k')) as [->|Hne]; simpl.
    + by rewrite decide_True.
    + by rewrite decide_False.
Qed.

Lemma get_set_ne {V : Type} (k k' : string) (v : V) (d : dict V) :
  k <> k' -> Dict.get k' (Dict.set k v d) = Dict.get k' d.
Proof.
  intros Hne. induction d as [|[k0 v0] d IH]; simpl.
  - by rewrite decide_False.
  - destruct (decide (k = k0)) as [->|Hne0]; simpl.
    + by rewrite !decide_False.
    + by rewrite IH.
Qed.

Lemma mem_is_Some {V : Type} (k : string) (d : dict V) :
  Dict.mem k d = true <-> is_Some (Dict.get k d).
Proof.
  induction d as [|[k' v'] d IH]; simpl.
  - split; [done|by intros [? ?]].
  - case_decide; [split; eauto|done].
Qed.

Lemma mem_keys {V : Type} (k : string) (d : dict V) :
  Dict.mem k d = true <-> k ∈ Dict.keys d.
Proof. by rewrite mem_is_Some, key_is_Some. Qed.

Lemma keys_set {V : Type} (k : string) (v : V) (d : dict V) :
  Dict.keys (Dict.set k v d)
  = if Dict.mem k d then Dict.keys d else (Dict.keys d ++ [k])%list.
Proof.
  destruct (Dict.mem k d) eqn:Hmem.
  - apply mem_is_Some in Hmem as [w Hw]. by eapply keys_set_present.
  - apply keys_set_absent. intros Hin%mem_keys. congruence.
Qed.

Lemma NoDup_keys_set {V : Type} (k : string) (v : V) (d : dict V) :
  NoDup (Dict.keys d) -> NoDup (Dict.keys (Dict.set k v d)).
Proof.
  intros Hnd. rewrite keys_set. destruct (Dict.mem k d) eqn:Hmem; [done|].
  apply NoDup_app. split_and!; [done| |apply NoDup_singleton].
  intros x Hx ->%list_elem_of_singleton. apply mem_keys in Hx. congruence.
Qed.

Lemma get_update {V : Type} (k k' : string) (f : V -> V) (d : dict V) :
  Dict.get k' (dict_update k f d)
  = if decide (k' = k) then f <$> Dict.get k' d else Dict.get k' d.
Proof.
  induction d as [|[k0 v0] d IH]; simpl; [by case_decide|].
  destruct (decide (k = k0)) as [->|Hne]; simpl.
  - destruct (decide (k' = k0)) as [->|Hne']; simpl; [done|]. done.
  - rewrite IH. destruct (decide (k' = k0)) as [->|Hne'].
    + by rewrite decide_False.
    + done.
Qed.

Lemma keys_update {V : Type} (k : string) (f : V -> V) (d : dict V) :
  Dict.keys (dict_update k f d) = Dict.keys d.
Proof.
  unfold Dict.keys. induction d as [|[k' v'] d IH]; simpl; [done|].
  case_decide; [done|]. change ((k' :: (dict_update k f d).*1) = k' :: d.*1). by rewrite IH.
Qed.

(** The counters [_process_interface] creates: 0 for every declared method
    name, nothing else. *)
Lemma get_initial_calls (ms : list string) (acc : dict Z) (m : string) :
  Dict.get m (foldl (fun mc m => Dict.set m 0 mc) acc ms)
  = if decide (m ∈ ms) then Some 0 else Dict.get m acc.
Proof.
  revert acc. induction ms as [|m0 ms IH]; intros acc; simpl.
  - done.
  - rewrite IH. destruct (decide (m ∈ ms)) as [Hin|Hnin].
    + rewrite decide_True; [done|]. by apply elem_of_cons; right.
    + destruct (decide (m = m0)) as [->|Hne].
      * rewrite decide_True by (by apply elem_of_cons; left). apply get_set_eq.
      * rewrite decide_False by (intros [?|?]%elem_of_cons; done).
        by apply get_set_ne.
Qed.

(** X1: [_process_interface] stores, under the interface's name, a fresh
    record with the node's name, file, methods and extends-edges, no
    implementations, no usages, and a call counter 0 for exactly the
    declared method names; whatever was stored under that name before is
    replaced and keeps its place in the iteration order, a new name goes
    last; every other interface, the class store, the total and the
    maximum depth are untouched. *)
Theorem process_interface_lookup (node : InterfaceDeclaration) (path : string) (s : Analyzer) :
  let s' := _process_interface node path s in
  (exists info, Dict.get (node_name node) (interfaces (result s')) = Some info
     /\ name info = node_name node /\ file_path info = path
     /\ methods info = node_methods node /\ extends info = node_extends node
     /\ implementations info = [] /\ usages info = []
     /\ forall m, Dict.get m (method_calls info)
                  = if decide (m ∈ node_methods node) then Some 0 else None)
  /\ (forall k, k <> node_name node ->
        Dict.get k (interfaces (result s')) = Dict.get k (interfaces (result s)))
  /\ Dict.keys (interfaces (result s'))
     = (if Dict.mem (node_name node) (interfaces (result s))
        then Dict.keys (interfaces (result s))
        else (Dict.keys (interfaces (result s)) ++ [node_name node])%list)
  /\ classes (result s') = classes (result s)
  /\ total_classes (result s') = total_classes (result s)
  /\ max_call_depth s' = max_call_depth s.
Proof.
  intros s'. unfold s', _process_interface. simpl. split_and!; try done.
  - eexists. split; [apply get_set_eq|]. simpl. split_and!; try done.
    intros m. apply (get_initial_calls _ []).
  - intros k Hne. by apply get_set_ne.
  - apply keys_set.
Qed.

(** ** What the resolution passes leave alone *)

Lemma same_facts_refl (i : InterfaceInfo) : same_facts i i.
Proof. by split_and!. Qed.

Lemma same_store_refl (d : dict InterfaceInfo) : same_store d d.
Proof. unfold same_store. induction d; constructor; auto using same_facts_refl. Qed.

Lemma same_store_trans (d1 d2 d3 : dict InterfaceInfo) :
  same_store d1 d2 -> same_store d2 d3 -> same_store d1 d3.
Proof.
  unfold same_store. intros H12. revert d3.
  induction H12 as [|e1 e2 d1 d2 (Hk & Hn & Hf & Hm & He) _ IH]; intros d3 H23.
  - by inversion H23.
  - inversion H23 as [|? e3 ? d3' (Hk' & Hn' & Hf' & Hm' & He') H23']; subst.
    constructor; [|by apply IH].
    unfold same_facts. split_and!; congruence.
Qed.

Lemma same_store_update (k : string) (f : InterfaceInfo -> InterfaceInfo)
    (d : dict InterfaceInfo) :
  (forall i, same_facts i (f i)) -> same_store d (dict_update k f d).
Proof.
  intros Hf. unfold same_store. induction d as [|[k' i] d IH]; simpl; [constructor|].
  case_decide; constructor; simpl; auto using same_facts_refl.
  apply same_store_refl.
Qed.

Lemma same_store_fold {B : Type} (f : dict InterfaceInfo -> B -> dict InterfaceInfo)
    (l : list B) :
  (forall d x, same_store d (f d x)) -> forall d, same_store d (foldl f d l).
Proof.
  intros Hf. induction l as [|x l IH]; intros d; simpl; [apply same_store_refl|].
  eapply same_store_trans; [apply Hf|apply IH].
Qed.

Lemma same_facts_count_calls (env : Env) (content : string) (ms : list string) :
  forall i, same_facts i (state_of (for_each (count_calls env content) ms i)).
Proof.
  induction ms as [|m ms IH]; intros i; simpl; [apply same_facts_refl|].
  unfold count_calls at 1.
  destruct (Dict.get m (method_calls i)) as [c|]; simpl; [|apply same_facts_refl].
  specialize (IH (set_method_calls
                    (Dict.set m (c + Z.of_nat (length
                       (re_findall env ("\." +:+ m +:+ "\s*\(") content))) (method_calls i)) i)).
  destruct IH as (? & ? & ? & ?). by split_and!.
Qed.

Lemma same_store_count_calls_all (env : Env) (content : string) (d : dict InterfaceInfo) :
  same_store d (state_of (count_calls_all env content d)).
Proof.
  unfold same_store. induction d as [|[k i] d IH]; simpl; [constructor|].
  pose proof (same_facts_count_calls env content (methods i) i) as Hi.
  destruct (for_each _ _ i) as [i'|i']; simpl in *.
  - destruct (count_calls_all env content d) as [d'|d']; simpl in *; by constructor.
  - constructor; [done|apply same_store_refl].
Qed.

Lemma same_store_keys (d d' : dict InterfaceInfo) :
  same_store d d' -> Dict.keys d = Dict.keys d'.
Proof.
  unfold Dict.keys. induction 1 as [|[k i] [k' i'] d d' [Hk _] _ IH]; [done|].
  simpl in *. change ((k :: d.*1) = k' :: d'.*1). by rewrite Hk, IH.
Qed.

Lemma same_store_get (d d' : dict InterfaceInfo) (n : string) :
  same_store d d' ->
  match Dict.get n d, Dict.get n d' with
  | Some i, Some i' => same_facts i i'
  | None, None => True
  | _, _ => False
  end.
Proof.
  induction 1 as [|[k i] [k' i'] d d' [Hk Hf] _ IH]; simpl in *; [done|].
  subst k'. by case_decide.
Qed.

(** Stores with the same declared facts give every walk the same result. *)
Lemma same_store_depth_fuel (d d' : dict InterfaceInfo) (fuel : nat) :
  same_store d d' ->
  forall n v, get_interface_depth_fuel d fuel n v = get_interface_depth_fuel d' fuel n v.
Proof.
  intros Hsame. induction fuel as [|fuel IH]; intros n v; simpl; [done|].
  case_decide; [done|]. pose proof (same_store_get d d' n Hsame) as Hget.
  destruct (Dict.get n d) as [i|], (Dict.get n d') as [i'|]; try done.
  destruct Hget as (_ & _ & _ & <-). case_decide; [done|].
  assert (Hloop : forall ps acc,
            depth_loop (get_interface_depth_fuel d fuel) ps acc
            = depth_loop (get_interface_depth_fuel d' fuel) ps acc).
  { induction ps as [|p ps IHps]; intros acc; simpl; [done|].
    rewrite IH. destruct (get_interface_depth_fuel d' fuel p acc.2) as [[? ?]|]; [|done].
    apply IHps. }
  by rewrite Hloop.
Qed.

Lemma same_store_depth (d d' : dict InterfaceInfo) (n : string) :
  same_store d d' -> _get_interface_depth d n = _get_interface_depth d' n.
Proof.
  intros Hsame. unfold _get_interface_depth, depth_fuel.
  rewrite (Forall2_length _ _ _ Hsame). by rewrite (same_store_depth_fuel d d' _ Hsame).
Qed.

Lemma find_implementations_same (s : Analyzer) :
  same_store (interfaces (result s)) (interfaces (result (_find_implementations s))).
Proof.
  unfold _find_implementations. simpl. apply same_store_fold.
  intros d [class_name class_info]. apply same_store_fold.
  intros d' iface_name. destruct (Dict.mem iface_name d'); [|apply same_store_refl].
  apply same_store_update. intros i. by split_and!.
Qed.

Lemma find_usages_same (env : Env) (s : Analyzer) :
  same_store (interfaces (result s)) (interfaces (result (_find_usages env s))).
Proof.
  unfold _find_usages. simpl. apply same_store_fold.
  intros d [class_name class_info].
  destruct (read_file env _) as [content|]; [|apply same_store_refl].
  apply same_store_fold. intros d' iface_name. unfold record_usage.
  destruct (existsb _ _); [|apply same_store_refl].
  apply same_store_update. intros i. case_decide; by split_and!.
Qed.

Lemma analyze_method_calls_same (env : Env) (s : Analyzer) :
  same_store (interfaces (result s)) (interfaces (result (_analyze_method_calls env s))).
Proof.
  unfold _analyze_method_calls. simpl. apply same_store_fold.
  intros d [class_name class_info].
  destruct (read_file env _) as [content|]; [apply same_store_count_calls_all|].
  apply same_store_refl.
Qed.

(** X2: the three resolution passes never add, drop or reorder a stored
    interface and never change its name, file, methods or extends-edges;
    they leave the class store, the total and the maximum depth as they
    are; so every interface has the same depth after a pass as before. *)
Theorem resolution_keeps_declarations (env : Env) (s : Analyzer) :
  let kept (s' : Analyzer) :=
    same_store (interfaces (result s)) (interfaces (result s'))
    /\ Dict.keys (interfaces (result s')) = Dict.keys (interfaces (result s))
    /\ classes (result s') = classes (result s)
    /\ total_classes (result s') = total_classes (result s)
    /\ max_call_depth s' = max_call_depth s
    /\ forall n, _get_interface_depth (interfaces (result s')) n
                 = _get_interface_depth (interfaces (result s)) n in
  kept (_find_implementations s) /\ kept (_find_usages env s)
  /\ kept (_analyze_method_calls env s).
Proof.
  intros kept.
  assert (Hkept : forall s', same_store (interfaces (result s)) (interfaces (result s')) ->
            classes (result s') = classes (result s) ->
            total_classes (result s') = total_classes (result s) ->
            max_call_depth s' = max_call_depth s -> kept s').
  { intros s' Hsame Hc Ht Hm. unfold kept. split_and!; try done.
    - symmetry. by apply same_store_keys.
    - intros n. symmetry. by apply same_store_depth. }
  split_and!; apply Hkept; try done.
  - apply find_implementations_same.
  - apply find_usages_same.
  - apply analyze_method_calls_same.
Qed.

(** ** The stores after analysis *)

Lemma Forall_set {V : Type} (P : string * V -> Prop) (k : string) (v : V) (d : dict V) :
  Forall P d -> P (k, v) -> Forall P (Dict.set k v d).
Proof.
  intros Hd Hv. induction d as [|[k' v'] d IH]; simpl.
  - by constructor.
  - inversion_clear Hd. case_decide; [subst|]; constructor; auto.
Qed.

Lemma same_store_keyed (d d' : dict InterfaceInfo) :
  same_store d d' -> keyed_by_name d -> keyed_by_name d'.
Proof.
  unfold keyed_by_name. induction 1 as [|[k i] [k' i'] d d' (Hk & Hn & _) _ IH]; [done|].
  intros Hd. inversion_clear Hd. simpl in *. constructor; [simpl; congruence|auto].
Qed.

Lemma parse_file_wf (env : Env) (depth0 : Z) (path : string) (s : Analyzer) :
  parsed_wf depth0 s -> parsed_wf depth0 (_parse_file env path s).
Proof.
  intros Hs. unfold _parse_file. destruct (parse env path) as [[inodes cnodes]|]; [|done].
  apply (foldl_invariant (parsed_wf depth0)).
  - intros s' node _ (Hn & Hk & Hcn & Hck & Hd). unfold parsed_wf, _process_class. simpl.
    split_and!; try done.
    + by apply NoDup_keys_set.
    + by apply Forall_set.
  - apply (foldl_invariant (parsed_wf depth0)); [|done].
    intros s' node _ (Hn & Hk & Hcn & Hck & Hd). unfold parsed_wf, _process_interface. simpl.
    split_and!; try done.
    + by apply NoDup_keys_set.
    + by apply Forall_set.
Qed.

(** The stages of [analyze]: the state the depth pass starts from has the
    stores in their final form. *)
Lemma analyze_stages (env : Env) (java_files : list string) (s0 : Analyzer) :
  exists s1 s4,
    s1 = foldl (fun s file_path => _parse_file env file_path s) s0 java_files
    /\ same_store (interfaces (result s1)) (interfaces (result s4))
    /\ classes (result s4) = classes (result s1)
    /\ max_call_depth s4 = max_call_depth s1
    /\ analyze env java_files s0
       = set_total_classes (Dict.len (classes (result s4))) (_calculate_call_depths s4).
Proof.
  eexists _, (_analyze_method_calls env (_find_usages env (_find_implementations _))).
  split; [reflexivity|]. split_and!; [| | |].
  - eapply same_store_trans; [apply find_implementations_same|].
    eapply same_store_trans; [apply find_usages_same|]. apply analyze_method_calls_same.
  - done.
  - done.
  - unfold analyze. f_equal. by destruct (calculate_call_depths_spec
      (_analyze_method_calls env (_find_usages env (_find_implementations
         (foldl (fun s file_path => _parse_file env file_path s) s0 java_files)))))
      as (-> & _).
Qed.

Lemma analyze_project_path (env : Env) (java_files : list string) (s0 : Analyzer) :
  project_path (analyze env java_files s0) = project_path s0.
Proof.
  unfold analyze. simpl.
  assert (Hp : forall s', project_path (_calculate_call_depths s') = project_path s').
  { intros s'. unfold _calculate_call_depths.
    apply (foldl_invariant (fun t => project_path t = project_path s')); [|done].
    intros t n _ Ht. unfold update_max_depth. by destruct (_ <? _). }
  rewrite Hp. simpl.
  apply (foldl_invariant (fun t => project_path t = project_path s0)); [|done].
  intros t f _ Ht. unfold _parse_file. destruct (parse env f) as [[inodes cnodes]|]; [|done].
  apply (foldl_invariant (fun t => project_path t = project_path s0)); [by intros|].
  apply (foldl_invariant (fun t => project_path t = project_path s0)); [by intros|done].
Qed.

(** X3: after [analyze] on a fresh analyzer both stores hold one entry per
    name, every entry is stored under the name it carries,
    [total_classes] is the number of stored classes, and the project path
    is the one the analyzer was created with. *)
Theorem analyze_store_wellformed (env : Env) (java_files : list string) (path : string) :
  let s := analyze env java_files (init path) in
  NoDup (Dict.keys (interfaces (result s))) /\ keyed_by_name (interfaces (result s))
  /\ NoDup (Dict.keys (classes (result s))) /\ classes_keyed_by_name (classes (result s))
  /\ total_classes (result s) = Dict.len (classes (result s))
  /\ project_path s = path.
Proof.
  intros s.
  assert (Hpath : project_path s = path)
    by apply (analyze_project_path env java_files (init path)).
  revert Hpath. unfold s.
  destruct (analyze_stages env java_files (init path))
    as (s1 & s4 & Hs1 & Hsame & Hcls & Hmcd & ->).
  assert (Hwf : parsed_wf 1 s1).
  { subst s1. apply (foldl_invariant (parsed_wf 1)).
    - intros s' f _. apply parse_file_wf.
    - unfold parsed_wf, init. simpl. split_and!; try done; constructor. }
  destruct Hwf as (Hn & Hk & Hcn & Hck & _).
  destruct (calculate_call_depths_spec s4) as (Hres & _ & _).
  intros Hpath. simpl in *. rewrite Hres, Hcls.
  split_and!; try done.
  - by rewrite <- (same_store_keys _ _ Hsame).
  - by eapply same_store_keyed.
Qed.

(** ** The maximum depth *)

Lemma calculate_call_depths_attained (names : list string) (s : Analyzer) :
  max_call_depth (foldl update_max_depth s names) = max_call_depth s
  \/ exists k, k ∈ names
       /\ max_call_depth (foldl update_max_depth s names)
          = _get_interface_depth (interfaces (result s)) k.
Proof.
  revert s. induction names as [|n names IH]; intros s; simpl; [by left|].
  destruct (update_max_depth_spec s n) as (Hr & _ & _).
  destruct (IH (update_max_depth s n)) as [Heq|(k & Hk & Heq)].
  - rewrite Heq. unfold update_max_depth.
    destruct (Z.ltb_spec (max_call_depth s) (_get_interface_depth (interfaces (result s)) n));
      simpl; [|by left].
    right. exists n. split; [by apply elem_of_cons; left|done].
  - right. exists k. split; [by apply elem_of_cons; right|]. by rewrite Heq, Hr.
Qed.

(** X4: [_calculate_call_depths] changes nothing but [max_call_depth], and
    sets it to the larger of its old value and the depths of the stored
    interfaces: it does not decrease, it is at least the depth of every
    stored interface, and it is either the old value or the depth of a
    stored interface. *)
Theorem calculate_call_depths_is_maximum (s : Analyzer) :
  let s' := _calculate_call_depths s in
  result s' = result s /\ project_path s' = project_path s
  /\ max_call_depth s <= max_call_depth s'
  /\ (forall k, k ∈ Dict.keys (interfaces (result s)) ->
        _get_interface_depth (interfaces (result s)) k <= max_call_depth s')
  /\ (max_call_depth s' = max_call_depth s
      \/ exists k, k ∈ Dict.keys (interfaces (result s))
           /\ max_call_depth s' = _get_interface_depth (interfaces (result s)) k).
Proof.
  intros s'. destruct (calculate_call_depths_spec s) as (Hres & Hmono & Hall).
  split_and!; try done.
  - unfold s', _calculate_call_depths.
    apply (foldl_invariant (fun t => project_path t = project_path s)); [|done].
    intros t n _ Ht. unfold update_max_depth. by destruct (_ <? _).
  - apply calculate_call_depths_attained.
Qed.

(** After analysis of a fresh analyzer the maximum depth is the largest
    depth of a stored interface, and 1 when nothing is stored. *)
Lemma analyze_max_call_depth (env : Env) (java_files : list string) (path : string) :
  let s := analyze env java_files (init path) in
  1 <= max_call_depth s
  /\ (forall k, k ∈ Dict.keys (interfaces (result s)) ->
        _get_interface_depth (interfaces (result s)) k <= max_call_depth s)
  /\ (max_call_depth s = 1
      \/ exists k, k ∈ Dict.keys (interfaces (result s))
           /\ max_call_depth s = _get_interface_depth (interfaces (result s)) k).
Proof.
  intros s. destruct (analyze_stages env java_files (init path))
    as (s1 & s4 & Hs1 & Hsame & Hcls & Hmcd & Heq).
  assert (Hwf : parsed_wf 1 s1).
  { subst s1. apply (foldl_invariant (parsed_wf 1)).
    - intros s' f _. apply parse_file_wf.
    - unfold parsed_wf, init. simpl. split_and!; try done; constructor. }
  destruct Hwf as (_ & _ & _ & _ & Hone). rewrite <- Hmcd in Hone.
  destruct (calculate_call_depths_spec s4) as (Hres & Hmono & Hall).
  pose proof (calculate_call_depths_attained (Dict.keys (interfaces (result s4))) s4) as Hatt.
  unfold s. rewrite Heq. simpl. rewrite Hres. fold (_calculate_call_depths s4) in Hatt.
  split_and!; [lia|done|]. by rewrite <- Hone.
Qed.

(** ** Depth and normalized depth *)

Section DepthBounds.
Variable ifaces : dict InterfaceInfo.

Lemma depth_loop_bound (rec : string -> gset string -> option (Z * gset string))
    (bound : Z) (parents : list string) :
  (forall p v d v', rec p v = Some (d, v') ->
     v ⊆ v' /\ d <= Z.of_nat (unvisited ifaces v) + 1) ->
  forall acc m v', depth_loop rec parents acc = Some (m, v') ->
    acc.1 <= bound -> Z.of_nat (unvisited ifaces acc.2) + 1 <= bound ->
    acc.2 ⊆ v' /\ m <= bound.
Proof.
  intros Hrec. induction parents as [|p ps IH]; intros [m0 v0] m v'; simpl.
  - intros [= -> ->]. done.
  - destruct (rec p v0) as [[d v1]|] eqn:Hp; [|done]. intros Hloop Hm0 Hv0.
    destruct (Hrec _ _ _ _ Hp) as [Hsub Hd].
    pose proof (unvisited_mono ifaces _ _ Hsub) as Hmono.
    destruct (IH _ _ _ Hloop) as [Hsub' Hm]; simpl in *; [lia|lia|].
    split; [by etrans|done].
Qed.

(** A walk that returns has only grown the visited-set, and its result is
    at most one more than the number of stored names not yet visited. *)
Lemma get_interface_depth_fuel_bound (fuel : nat) :
  forall n v d v', get_interface_depth_fuel ifaces fuel n v = Some (d, v') ->
    v ⊆ v' /\ d <= Z.of_nat (unvisited ifaces v) + 1.
Proof.
  induction fuel as [|fuel IH]; intros n v d v'; simpl; [done|].
  case_decide as Hin; [intros [= <- <-]; split; [done|lia]|].
  destruct (Dict.get n ifaces) as [i|] eqn:Hget; [|intros [= <- <-]; split; [done|lia]].
  case_decide as Hext; [intros [= <- <-]; split; [apply union_subseteq_r|lia]|].
  destruct (depth_loop _ (extends i) _) as [[m v1]|] eqn:Hloop; [|done].
  intros [= <- <-].
  pose proof (unvisited_enter ifaces _ _ _ Hget Hin) as Hdec.
  destruct (depth_loop_bound _ (Z.of_nat (unvisited ifaces v)) _ IH _ _ _ Hloop)
    as [Hsub Hm]; simpl in *; [lia|lia|].
  split; [|lia]. etrans; [apply union_subseteq_r|exact Hsub].
Qed.

Lemma depth_loop_grows (rec : string -> gset string -> option (Z * gset string))
    (parents : list string) :
  forall acc m v', depth_loop rec parents acc = Some (m, v') -> acc.1 <= m.
Proof.
  induction parents as [|p ps IH]; intros [m0 v0] m v'; simpl.
  - intros [= -> ->]. lia.
  - destruct (rec p v0) as [[d v1]|]; [|done]. intros Hloop%IH. simpl in *. lia.
Qed.

(** A call returns 0 exactly for a visited name, and then leaves the
    visited-set as it was. *)
Lemma get_interface_depth_fuel_zero (fuel : nat) (n : string) (v v' : gset string) (d : Z) :
  get_interface_depth_fuel ifaces fuel n v = Some (d, v') ->
  0 <= d /\ (d = 0 <-> n ∈ v) /\ (n ∈ v -> v' = v).
Proof.
  destruct fuel as [|fuel]; simpl; [done|].
  case_decide as Hin; [by intros [= <- <-]|].
  destruct (Dict.get n ifaces) as [i|]; [|intros [= <- <-]; split_and!; [lia|done|done]].
  case_decide; [intros [= <- <-]; split_and!; [lia|done|done]|].
  destruct (depth_loop _ (extends i) _) as [[m v1]|] eqn:Hloop; [|done].
  intros [= <- <-]. apply depth_loop_grows in Hloop. simpl in Hloop.
  split_and!; [lia| |done]. split; [lia|done].
Qed.

Lemma depth_loop_zero (fuel : nat) (visited : gset string) (parents : list string) :
  forall m v', depth_loop (get_interface_depth_fuel ifaces fuel) parents (0, visited)
               = Some (m, v') ->
  m = 0 <-> forall p, p ∈ parents -> p ∈ visited.
Proof.
  induction parents as [|p ps IH]; intros m v'; cbn [depth_loop fst snd].
  - intros [= <- <-]. split; [|done]. intros _ p Hp. by apply elem_of_nil in Hp.
  - destruct (get_interface_depth_fuel ifaces fuel p visited) as [[d v1]|] eqn:Hp; [|done].
    destruct (get_interface_depth_fuel_zero _ _ _ _ _ Hp) as (Hd & Hzero & Hsame).
    intros Hloop. destruct (decide (p ∈ visited)) as [Hin|Hnin].
    + rewrite (Hsame Hin) in Hloop. replace d with 0 in Hloop by (symmetry; by apply Hzero).
      rewrite (IH _ _ Hloop). split.
      * intros Hall q [->|Hq]%elem_of_cons; auto.
      * intros Hall q Hq. apply Hall. by apply elem_of_cons; right.
    + apply depth_loop_grows in Hloop. simpl in Hloop.
      assert (d <> 0) by (intros Hd0; by apply Hnin, Hzero). split; [lia|].
      intros Hall. destruct Hnin. apply Hall. by apply elem_of_cons; left.
Qed.
End DepthBounds.

(** X5: the depth of any name, started with a fresh visited-set, is at
    least 1 and at most the number of stored interfaces plus 1; a name
    absent from the store has depth 1; a stored interface has depth 1
    exactly when it has no extends-edge to any name but itself, so one
    edge to another name, stored or dangling, gives depth at least 2. *)
Theorem depth_bounds (ifaces : dict InterfaceInfo) (n : string) :
  1 <= _get_interface_depth ifaces n <= Z.of_nat (length ifaces) + 1
  /\ (Dict.get n ifaces = None -> _get_interface_depth ifaces n = 1)
  /\ (forall i, Dict.get n ifaces = Some i ->
        (_get_interface_depth ifaces n = 1 <-> forall p, p ∈ extends i -> p = n)).
Proof.
  destruct (get_interface_depth_fuel_returns ifaces (depth_fuel ifaces) n ∅)
    as (d & v & Hd & _ & _).
  { unfold depth_fuel. pose proof (unvisited_bound ifaces ∅). lia. }
  destruct (get_interface_depth_fuel_bound ifaces _ _ _ _ _ Hd) as [_ Hup].
  destruct (get_interface_depth_fuel_zero ifaces _ _ _ _ _ Hd) as (H0 & Hz & _).
  pose proof (unvisited_bound ifaces ∅) as Hb.
  unfold _get_interface_depth. rewrite Hd.
  assert (d <> 0) by (intros Hd0%Hz; by apply not_elem_of_empty in Hd0).
  split_and!; [lia|lia| |].
  - intros Hget. revert Hd. unfold depth_fuel. simpl.
    rewrite decide_False by apply not_elem_of_empty. rewrite Hget. by intros [= <- _].
  - intros i Hget. revert Hd. unfold depth_fuel. simpl.
    rewrite decide_False by apply not_elem_of_empty. rewrite Hget.
    case_decide as Hext.
    + intros [= <- _]. split; [|done]. intros _ p Hp. rewrite Hext in Hp.
      by apply elem_of_nil in Hp.
    + destruct (depth_loop _ (extends i) _) as [[m v1]|] eqn:Hloop; [|done].
      intros [= <- _]. apply depth_loop_zero in Hloop.
      split.
      * intros Hm p Hp. assert (m = 0) as Hm0 by lia.
        pose proof (proj1 Hloop Hm0 p Hp) as Hin.
        apply elem_of_union in Hin as [Hin|Hin]; [by apply elem_of_singleton in Hin|].
        by apply not_elem_of_empty in Hin.
      * intros Hall. assert (m = 0); [|lia]. apply Hloop. intros p Hp.
        rewrite (Hall p Hp). apply elem_of_union_l. by apply elem_of_singleton.
Qed.

(** ** Normalized depth after analysis *)

Local Open Scope Q_scope.

Lemma ratio_zero (a b : Z) : (0 < b)%Z -> (inject_Z a / inject_Z b == 0 <-> a = 0%Z).
Proof.
  intros Hb.
  assert (Hb' : ~ inject_Z b == 0).
  { intros H. apply (inject_Z_injective b 0) in H. lia. }
  split.
  - intros H. apply (inject_Z_injective a 0).
    rewrite <- (Qmult_div_r (inject_Z a) (inject_Z b)) by done. rewrite H. ring.
  - intros ->. unfold Qdiv. ring.
Qed.

Lemma ratio_one (a b : Z) : (0 < b)%Z -> (inject_Z a / inject_Z b == 1 <-> a = b).
Proof.
  intros Hb.
  assert (Hb' : ~ inject_Z b == 0).
  { intros H. apply (inject_Z_injective b 0) in H. lia. }
  split.
  - intros H. apply (inject_Z_injective a b).
    rewrite <- (Qmult_div_r (inject_Z a) (inject_Z b)) by done. rewrite H. ring.
  - intros ->. by apply Qmult_inv_r.
Qed.

(** X6: after analysis the normalized depth of a stored interface is 0
    exactly when its depth is 1, and 1 exactly when it is as deep as the
    deepest interface of a project that is not flat; in a project where
    every interface has depth 1 it is 0 for all. *)
Theorem ncd_extremes (env : Env) (java_files : list string) (path : string)
    (interface_name : string) (i : InterfaceInfo) :
  let s := analyze env java_files (init path) in
  Dict.get interface_name (interfaces (result s)) = Some i ->
  let cd := _get_interface_depth (interfaces (result s)) interface_name in
  let ncd := m_ncd (metrics s interface_name i) in
  (ncd == 0 <-> cd = 1%Z)
  /\ (ncd == 1 <-> cd = max_call_depth s /\ (1 < max_call_depth s)%Z)
  /\ (max_call_depth s = 1%Z -> ncd == 0).
Proof.
  intros s Hget cd ncd.
  destruct (analyze_ok env java_files path) as (_ & _ & Hdepth).
  pose proof (depth_stored_positive _ _ _ Hget) as Hpos.
  pose proof (Hdepth interface_name (get_Some_key _ _ _ Hget)) as Hle.
  fold s in Hle. fold cd in Hpos, Hle.
  unfold ncd, metrics. cbn [m_ncd]. fold s. fold cd.
  destruct (Z.ltb_spec 1 (max_call_depth s)) as [Hlt|Hge].
  - rewrite ratio_zero, ratio_one by lia. split_and!; [lia|lia|lia].
  - split_and!; [split; [lia|done]| |done].
    split; [|lia]. intros H. symmetry in H. by apply Q_apart_0_1 in H.
Qed.

Local Close Scope Q_scope.

Lemma ncd_extremes_witness :
  exists i, Dict.get "J4" (interfaces (result chain_project)) = Some i
            /\ (m_ncd (metrics chain_project "J4" i) == 0)%Q.
Proof.
  exists (mkInterfaceInfo "J4" "I.java" [] [] [] [] []).
  assert (Hget : Dict.get "J4" (interfaces (result chain_project))
                 = Some (mkInterfaceInfo "J4" "I.java" [] [] [] [] []))
    by (vm_compute; reflexivity).
  split; [exact Hget|].
  destruct (ncd_extremes chain_env chain_files "chain" "J4" _ Hget) as (Hzero & _).
  apply Hzero. vm_compute. reflexivity.
Defined.

(** ** Implementation links *)

Lemma add_implementers_nil (o : option InterfaceInfo) : add_implementers [] <$> o = o.
Proof. destruct o as [[]|]; [|done]. unfold add_implementers. simpl. by rewrite app_nil_r. Qed.

Lemma add_implementers_app (l1 l2 : list string) (o : option InterfaceInfo) :
  add_implementers l2 <$> (add_implementers l1 <$> o) = add_implementers (l1 ++ l2) <$> o.
Proof.
  destruct o as [i|]; [|done]. unfold add_implementers. simpl. by rewrite app_assoc.
Qed.

(** The inner loop, for one class. *)
Lemma find_implementations_class (class_name k : string) (impl : list string) :
  forall d : dict InterfaceInfo,
  Dict.get k
    (foldl (fun ifaces iface_name =>
              if Dict.mem iface_name ifaces
              then dict_update iface_name
                     (fun i => set_implementations (implementations i ++ [class_name]) i)
                     ifaces
              else ifaces) d impl)
  = add_implementers (replicate (length (filter (fun n => n = k) impl)) class_name)
      <$> Dict.get k d.
Proof.
  induction impl as [|n impl IH]; intros d; simpl.
  - by rewrite add_implementers_nil.
  - rewrite IH, filter_cons. destruct (decide (n = k)) as [->|Hne]; simpl.
    + destruct (Dict.mem k d) eqn:Hmem.
      * rewrite get_update, decide_True by done.
        apply (add_implementers_app [class_name]).
      * assert (Dict.get k d = None) as ->; [|done].
        destruct (Dict.get k d) eqn:Hget; [|done].
        assert (Dict.mem k d = true) by (apply mem_is_Some; eauto). congruence.
    + destruct (Dict.mem n d); [|done]. by rewrite get_update, decide_False.
Qed.

Lemma find_implementations_get (s : Analyzer) (k : string) :
  Dict.get k (interfaces (result (_find_implementations s)))
  = add_implementers (implementers k (classes (result s)))
      <$> Dict.get k (interfaces (result s)).
Proof.
  unfold _find_implementations. simpl.
  generalize (interfaces (result s)). induction (classes (result s)) as [|[c ci] cls IH];
    intros d; simpl.
  - by rewrite add_implementers_nil.
  - rewrite IH, find_implementations_class. apply add_implementers_app.
Qed.

(** X7: after [_find_implementations] the record stored under a name is
    the record stored before with, appended to its implementations, the
    names of the classes that list that name, in the order of the class
    store and once per occurrence in the implements-list; a name that is
    not stored gets no entry, and the names of the store and their order
    are unchanged. *)
Theorem find_implementations_links (s : Analyzer) (k : string) :
  Dict.get k (interfaces (result (_find_implementations s)))
  = add_implementers (implementers k (classes (result s)))
      <$> Dict.get k (interfaces (result s))
  /\ Dict.keys (interfaces (result (_find_implementations s)))
     = Dict.keys (interfaces (result s)).
Proof.
  split; [apply find_implementations_get|].
  symmetry; apply same_store_keys, find_implementations_same.
Qed.

(** ** Usage links *)

Lemma add_once_elem (c x : string) (us : list string) :
  x ∈ add_once c us <-> x ∈ us \/ x = c.
Proof.
  unfold add_once. case_decide as Hin.
  - split; [by left|]. by intros [?| ->].
  - rewrite elem_of_app, list_elem_of_singleton. done.
Qed.

Lemma add_once_NoDup (c : string) (us : list string) : NoDup us -> NoDup (add_once c us).
Proof.
  intros Hnd. unfold add_once. case_decide as Hin; [done|].
  apply NoDup_app. split_and!; [done| |apply NoDup_singleton].
  by intros x Hx ->%list_elem_of_singleton.
Qed.

Lemma add_all_elem (l : list string) (x : string) :
  forall us, x ∈ foldl (fun us c => add_once c us) us l <-> x ∈ us \/ x ∈ l.
Proof.
  induction l as [|c l IH]; intros us; simpl.
  - split; [by left|]. intros [?|Hx]; [done|]. by apply elem_of_nil in Hx.
  - rewrite IH, add_once_elem, elem_of_cons. tauto.
Qed.

Lemma add_all_NoDup (l : list string) :
  forall us, NoDup us -> NoDup (foldl (fun us c => add_once c us) us l).
Proof. induction l as [|c l IH]; intros us Hnd; simpl; [done|]. by apply IH, add_once_NoDup. Qed.

Lemma add_all_present (l : list string) (us : list string) :
  (forall c, c ∈ l -> c ∈ us) -> foldl (fun us c => add_once c us) us l = us.
Proof.
  induction l as [|c l IH]; intros Hall; simpl; [done|].
  assert (add_once c us = us) as ->.
  { unfold add_once. rewrite decide_True; [done|]. apply Hall. by apply elem_of_cons; left. }
  apply IH. intros x Hx. apply Hall. by apply elem_of_cons; right.
Qed.

Lemma add_users_nil (o : option InterfaceInfo) : add_users [] <$> o = o.
Proof. by destruct o as [[]|]. Qed.

Lemma add_users_app (l1 l2 : list string) (o : option InterfaceInfo) :
  add_users l2 <$> (add_users l1 <$> o) = add_users (l1 ++ l2) <$> o.
Proof. destruct o as [i|]; [|done]. unfold add_users. simpl. by rewrite foldl_app. Qed.

(** The guarded append of the code is [add_users] of one name. *)
Lemma guarded_append (c : string) (o : option InterfaceInfo) :
  (fun i => if decide (c ∈ usages i) then i else set_usages (usages i ++ [c]) i) <$> o
  = add_users [c] <$> o.
Proof.
  destruct o as [[]|]; [|done]. unfold add_users, add_once. simpl. by case_decide.
Qed.

Lemma add_once_twice (c : string) (us : list string) :
  add_once c (add_once c us) = add_once c us.
Proof.
  unfold add_once at 1. rewrite decide_True; [done|]. apply add_once_elem. by right.
Qed.

Lemma add_users_twice (c : string) (o : option InterfaceInfo) :
  add_users [c] <$> (add_users [c] <$> o) = add_users [c] <$> o.
Proof.
  destruct o as [[]|]; [|done]. unfold add_users, set_usages. simpl.
  by rewrite add_once_twice.
Qed.

Lemma add_users_again (l : list string) (o : option InterfaceInfo) :
  add_users l <$> (add_users l <$> o) = add_users l <$> o.
Proof.
  destruct o as [[]|]; [|done]. unfold add_users, set_usages. simpl.
  rewrite (add_all_present l (foldl _ _ l)); [done|].
  intros c Hc. apply add_all_elem. by right.
Qed.

(** The inner loop, for one class whose file was read. *)
Lemma find_usages_class (env : Env) (c content k : string) (names : list string) :
  forall d : dict InterfaceInfo,
  Dict.get k (foldl (fun ifaces iface_name => record_usage env c content iface_name ifaces)
                d names)
  = if decide (k ∈ names)
    then (if refers_to env k content then add_users [c] <$> Dict.get k d else Dict.get k d)
    else Dict.get k d.
Proof.
  induction names as [|n names IH]; intros d; simpl; [done|].
  rewrite IH. clear IH.
  assert (Hstep : Dict.get k (record_usage env c content n d)
                  = if decide (k = n)
                    then (if refers_to env k content then add_users [c] <$> Dict.get k d
                          else Dict.get k d)
                    else Dict.get k d).
  { unfold record_usage. fold (refers_to env n content).
    destruct (decide (k = n)) as [->|Hne].
    - destruct (refers_to env n content); [|done].
      rewrite get_update, decide_True by done. apply guarded_append.
    - destruct (refers_to env n content); [|done]. by rewrite get_update, decide_False. }
  rewrite Hstep. destruct (decide (k = n)) as [->|Hne].
  - rewrite (decide_True (P := n ∈ n :: names)) by (by apply elem_of_cons; left).
    destruct (refers_to env n content); [|by case_decide].
    case_decide; [apply add_users_twice|done].
  - destruct (decide (k ∈ names)) as [Hin|Hnin].
    + by rewrite decide_True by (by apply elem_of_cons; right).
    + by rewrite decide_False by (intros [?|?]%elem_of_cons; done).
Qed.

Lemma find_usages_get (env : Env) (s : Analyzer) (k : string) :
  Dict.get k (interfaces (result (_find_usages env s)))
  = add_users (users env k (classes (result s))) <$> Dict.get k (interfaces (result s)).
Proof.
  unfold _find_usages. simpl.
  generalize (interfaces (result s)). induction (classes (result s)) as [|[c ci] cls IH];
    intros d; simpl.
  - by rewrite add_users_nil.
  - rewrite IH. clear IH. destruct (read_file env (c_file_path ci)) as [content|]; [|done].
    rewrite find_usages_class.
    destruct (refers_to env k content).
    + destruct (decide (k ∈ Dict.keys d)) as [Hin|Hnin].
      * apply (add_users_app [c]).
      * assert (Dict.get k d = None) as ->; [|done].
        destruct (Dict.get k d) eqn:Hget; [|done].
        destruct Hnin. apply key_is_Some. eauto.
    + by case_decide.
Qed.

(** X8: [_find_usages] extends the usages of each stored interface by the
    classes whose file can be read and matches one of the three patterns
    for the interface's name, in the order of the class store, skipping a
    name already listed; nothing else of the record changes and no entry is
    added.  So a class is listed afterwards exactly if it was listed before
    or is such a class, and a list without repetition stays so. *)
Theorem find_usages_links (env : Env) (s : Analyzer) (k : string) :
  Dict.get k (interfaces (result (_find_usages env s)))
  = add_users (users env k (classes (result s))) <$> Dict.get k (interfaces (result s))
  /\ Dict.keys (interfaces (result (_find_usages env s))) = Dict.keys (interfaces (result s))
  /\ (forall i c, c ∈ usages (add_users (users env k (classes (result s))) i)
                  <-> c ∈ usages i \/ c ∈ users env k (classes (result s)))
  /\ (forall i, NoDup (usages i) ->
                NoDup (usages (add_users (users env k (classes (result s))) i))).
Proof.
  split_and!.
  - apply find_usages_get.
  - symmetry. apply same_store_keys, find_usages_same.
  - intros i c. unfold add_users. simpl. apply add_all_elem.
  - intros i Hnd. unfold add_users. simpl. by apply add_all_NoDup.
Qed.

(** X9: running [_find_usages] again on the state it produced changes no
    record and no key: usage detection is idempotent. *)
Theorem find_usages_idempotent (env : Env) (s : Analyzer) (k : string) :
  Dict.get k (interfaces (result (_find_usages env (_find_usages env s))))
  = Dict.get k (interfaces (result (_find_usages env s)))
  /\ Dict.keys (interfaces (result (_find_usages env (_find_usages env s))))
     = Dict.keys (interfaces (result (_find_usages env s)))
  /\ classes (result (_find_usages env (_find_usages env s)))
     = classes (result (_find_usages env s)).
Proof.
  split_and!; [| |done].
  - rewrite (find_usages_get env (_find_usages env s) k), (find_usages_get env s k).
    change (classes (result (_find_usages env s))) with (classes (result s)).
    apply add_users_again.
  - symmetry. apply same_store_keys, find_usages_same.
Qed.

(** ** Call counts *)

Lemma counted_zero (i : InterfaceInfo) : counted (fun _ => 0) i i.
Proof.
  split; [apply same_facts_refl|]. split_and!; try done.
  intros m. destruct (Dict.get m (method_calls i)); [|done]. simpl. f_equal. lia.
Qed.

Lemma counted_ext (delta delta' : string -> Z) (i i' : InterfaceInfo) :
  (forall m, delta m = delta' m) -> counted delta i i' -> counted delta' i i'.
Proof.
  intros Heq (Hf & Hi & Hu & Hk & Hc). split_and!; try done.
  intros m. by rewrite Hc, Heq.
Qed.

Lemma counted_trans (delta1 delta2 : string -> Z) (i1 i2 i3 : InterfaceInfo) :
  counted delta1 i1 i2 -> counted delta2 i2 i3 ->
  counted (fun m => delta1 m + delta2 m) i1 i3.
Proof.
  intros ((Hn & Hp & Hm & He) & Hi & Hu & Hk & Hc) ((Hn' & Hp' & Hm' & He') & Hi' & Hu' & Hk' & Hc').
  split_and!; try congruence.
  - unfold same_facts. split_and!; congruence.
  - intros m. rewrite Hc', Hc, <- Hm.
    destruct (Dict.get m (method_calls i1)); [|done]. simpl. f_equal. lia.
Qed.

(** The loop over the methods of one interface, for one text. *)
Lemma count_calls_methods (env : Env) (content : string) (ms : list string) :
  forall i, (forall m, m ∈ ms -> is_Some (Dict.get m (method_calls i))) ->
  exists i', for_each (count_calls env content) ms i = Done i'
    /\ name i' = name i /\ file_path i' = file_path i /\ methods i' = methods i
    /\ extends i' = extends i /\ implementations i' = implementations i
    /\ usages i' = usages i
    /\ Dict.keys (method_calls i') = Dict.keys (method_calls i)
    /\ forall m, Dict.get m (method_calls i')
         = (fun c => c + occurrences m ms
                        * Z.of_nat (length (re_findall env ("\." +:+ m +:+ "\s*\(") content)))
           <$> Dict.get m (method_calls i).
Proof.
  induction ms as [|m0 ms IH]; intros i Hall; simpl.
  - exists i. split_and!; try done. intros m.
    destruct (Dict.get m (method_calls i)); [|done]. simpl. f_equal. unfold occurrences. simpl. lia.
  - unfold count_calls at 1.
    destruct (Hall m0 ltac:(by apply elem_of_cons; left)) as [c0 Hc0]. rewrite Hc0.
    set (n0 := Z.of_nat (length (re_findall env ("\." +:+ m0 +:+ "\s*\(") content))).
    set (i1 := set_method_calls (Dict.set m0 (c0 + n0) (method_calls i)) i).
    destruct (IH i1) as (i' & Hdone & Hn & Hp & Hm & He & Hi & Hu & Hk & Hc).
    { intros m Hm. unfold i1. simpl. destruct (decide (m0 = m)) as [->|Hne].
      - rewrite get_set_eq. eauto.
      - rewrite get_set_ne by done. apply Hall. by apply elem_of_cons; right. }
    exists i'. rewrite Hdone. split_and!; try done.
    + rewrite Hk. unfold i1. simpl. by eapply keys_set_present.
    + intros m. rewrite Hc. unfold i1. simpl. unfold occurrences. rewrite filter_cons.
      destruct (decide (m0 = m)) as [->|Hne].
      * rewrite get_set_eq, Hc0. simpl. f_equal. fold n0. lia.
      * rewrite get_set_ne by done. destruct (Dict.get m (method_calls i)); [|done].
        simpl. done.
Qed.

(** The loop over the stored interfaces, for one text: with complete
    counters it runs to its end. *)
Lemma count_calls_all_counted (env : Env) (content : string) (d : dict InterfaceInfo) :
  all_values counters_complete d ->
  exists d', count_calls_all env content d = Done d'
    /\ counted_store
         (fun m => Z.of_nat (length (re_findall env ("\." +:+ m +:+ "\s*\(") content))) d d'
    /\ all_values counters_complete d'.
Proof.
  unfold all_values, counted_store. induction d as [|[k i] d IH]; intros Hd; simpl.
  - exists []. by split_and!; constructor.
  - inversion_clear Hd as [|? ? Hi Hd']. simpl in Hi.
    destruct (count_calls_methods env content (methods i) i Hi)
      as (i' & -> & Hn & Hp & Hm & He & Him & Hu & Hk & Hc).
    destruct (IH Hd') as (d' & -> & Hcd & Hcomp).
    exists ((k, i') :: d'). split_and!; [done| |].
    + constructor; [|done]. simpl. split; [done|].
      unfold counted, same_facts. by split_and!.
    + constructor; [|done]. simpl. intros m Hmi. rewrite Hm in Hmi.
      rewrite Hc. destruct (Hi m Hmi) as [c ->]. simpl. eauto.
Qed.

Lemma counted_store_refl (d : dict InterfaceInfo) : counted_store (fun _ => 0) d d.
Proof. unfold counted_store. induction d; constructor; auto using counted_zero. Qed.

Lemma counted_store_trans (delta1 delta2 : string -> Z) (d1 d2 d3 : dict InterfaceInfo) :
  counted_store delta1 d1 d2 -> counted_store delta2 d2 d3 ->
  counted_store (fun m => delta1 m + delta2 m) d1 d3.
Proof.
  unfold counted_store. intros H12. revert d3.
  induction H12 as [|e1 e2 d1 d2 [Hk H1] _ IH]; intros d3 H23.
  - inversion H23. constructor.
  - inversion H23 as [|? e3 ? d3' [Hk' H2] H23']; subst.
    constructor; [|by apply IH]. split; [congruence|]. by eapply counted_trans.
Qed.

Lemma counted_store_ext (delta delta' : string -> Z) (d d' : dict InterfaceInfo) :
  (forall m, delta m = delta' m) -> counted_store delta d d' -> counted_store delta' d d'.
Proof.
  intros Heq Hd. unfold counted_store in *. eapply Forall2_impl; [exact Hd|].
  intros e e' [Hk Hc]. split; [done|]. by eapply counted_ext.
Qed.

Lemma counted_store_get (delta : string -> Z) (d d' : dict InterfaceInfo) (k : string) :
  counted_store delta d d' ->
  match Dict.get k d, Dict.get k d' with
  | Some i, Some i' => counted delta i i'
  | None, None => True
  | _, _ => False
  end.
Proof.
  induction 1 as [|[k1 i] [k2 i'] d d' [Hk Hc] _ IH]; simpl in *; [done|].
  subst k2. by case_decide.
Qed.

Lemma analyze_method_calls_counted (env : Env) (s : Analyzer) :
  all_values counters_complete (interfaces (result s)) ->
  counted_store (fun m => matches_in env m (classes (result s)))
    (interfaces (result s)) (interfaces (result (_analyze_method_calls env s))).
Proof.
  unfold _analyze_method_calls. simpl.
  generalize (interfaces (result s)). induction (classes (result s)) as [|[c ci] cls IH];
    intros d Hd; simpl.
  - apply counted_store_refl.
  - destruct (read_file env (c_file_path ci)) as [content|]; [|by apply IH].
    destruct (count_calls_all_counted env content d Hd) as (d' & -> & Hc & Hd'). simpl.
    eapply counted_store_ext; [|eapply counted_store_trans; [exact Hc|apply (IH _ Hd')]].
    intros m. simpl. done.
Qed.

Lemma analyze_method_calls_complete (env : Env) (s : Analyzer) :
  all_values counters_complete (interfaces (result s)) ->
  all_values counters_complete (interfaces (result (_analyze_method_calls env s))).
Proof.
  intros Hcomp. unfold _analyze_method_calls. simpl.
  apply (foldl_invariant (all_values counters_complete)); [|done].
  intros d [c ci] _ Hd. destruct (read_file env _) as [content|]; [|done].
  by destruct (count_calls_all_counted env content d Hd) as (d' & -> & _ & Hd').
Qed.

(** X10: in a store where every declared method has a call counter,
    [_analyze_method_calls] adds to each counter, once per declaration of
    its method name, the number of call-pattern matches summed over the
    stored classes whose file can be read; counters stay complete, and
    names, order and every other field are kept.  Counts are added to what
    was there, so a second run adds them again. *)
Theorem analyze_method_calls_counts (env : Env) (s : Analyzer) :
  all_values counters_complete (interfaces (result s)) ->
  counted_store (fun m => matches_in env m (classes (result s)))
    (interfaces (result s)) (interfaces (result (_analyze_method_calls env s)))
  /\ all_values counters_complete (interfaces (result (_analyze_method_calls env s)))
  /\ classes (result (_analyze_method_calls env s)) = classes (result s).
Proof.
  intros Hcomp. split_and!; [| |done].
  - by apply analyze_method_calls_counted.
  - by apply analyze_method_calls_complete.
Qed.

(** The passes before the call count keep what they do not write. *)
Lemma parse_phase_all_values (P : InterfaceInfo -> Prop) (env : Env)
    (java_files : list string) (s0 : Analyzer) :
  (forall node p s, all_values P (interfaces (result s)) ->
     all_values P (interfaces (result (_process_interface node p s)))) ->
  all_values P (interfaces (result s0)) ->
  all_values P (interfaces (result
    (foldl (fun s file_path => _parse_file env file_path s) s0 java_files))).
Proof.
  intros Hnew. apply (foldl_invariant (fun s => all_values P (interfaces (result s)))).
  intros s f _ Hs. unfold _parse_file. destruct (parse env f) as [[inodes cnodes]|]; [|done].
  apply (foldl_invariant (fun s => all_values P (interfaces (result s)))); [by intros|].
  apply (foldl_invariant (fun s => all_values P (interfaces (result s)))); [|done].
  intros s' node _. apply Hnew.
Qed.

Lemma find_implementations_all_values (P : InterfaceInfo -> Prop) (s : Analyzer) :
  (forall i l, P i -> P (set_implementations l i)) ->
  all_values P (interfaces (result s)) ->
  all_values P (interfaces (result (_find_implementations s))).
Proof.
  intros Himpl Hs. unfold _find_implementations. simpl.
  apply (foldl_invariant (all_values P)); [|done].
  intros d [class_name class_info] _ Hd.
  apply (foldl_invariant (all_values P)); [|done].
  intros d' iface_name _ Hd'. destruct (Dict.mem iface_name d'); [|done].
  apply all_values_update; [done|]. intros i Hi. by apply Himpl.
Qed.

Lemma find_usages_all_values (P : InterfaceInfo -> Prop) (env : Env) (s : Analyzer) :
  (forall i l, P i -> P (set_usages l i)) ->
  all_values P (interfaces (result s)) ->
  all_values P (interfaces (result (_find_usages env s))).
Proof.
  intros Huse Hs. unfold _find_usages. simpl.
  apply (foldl_invariant (all_values P)); [|done].
  intros d [class_name class_info] _ Hd.
  destruct (read_file env _) as [content|]; [|done].
  apply (foldl_invariant (all_values P)); [|done].
  intros d' iface_name _ Hd'. unfold record_usage. destruct (existsb _ _); [|done].
  apply all_values_update; [done|]. intros i Hi. case_decide; [done|by apply Huse].
Qed.

Lemma parse_phase_counters_zero (env : Env) (java_files : list string) (path : string) :
  all_values counters_zero (interfaces (result
    (foldl (fun s file_path => _parse_file env file_path s) (init path) java_files))).
Proof.
  apply parse_phase_all_values; [|constructor].
  intros node p t Ht. unfold _process_interface. simpl.
  apply all_values_set; [done|]. intros m. simpl. apply (get_initial_calls _ []).
Qed.

Lemma counters_zero_complete (d : dict InterfaceInfo) :
  all_values counters_zero d -> all_values counters_complete d.
Proof.
  intros Hd. eapply Forall_impl; [exact Hd|]. intros [k i] Hz m Hm. simpl in *.
  rewrite Hz, decide_True by done. eauto.
Qed.

Lemma analyze_method_calls_counts_witness :
  let s := foldl (fun s file_path => _parse_file chain_env file_path s)
             (init "chain") chain_files in
  all_values counters_complete (interfaces (result s))
  /\ all_values counters_complete (interfaces (result (_analyze_method_calls chain_env s))).
Proof.
  intros s.
  assert (Hs : all_values counters_complete (interfaces (result s)))
    by apply counters_zero_complete, parse_phase_counters_zero.
  split; [exact Hs|].
  destruct (analyze_method_calls_counts chain_env s Hs) as (_ & Hcomplete & _).
  exact Hcomplete.
Defined.

(** X11: after [analyze] on a fresh analyzer the call counters of a stored
    interface are keyed by exactly its declared method names, and the
    counter of a name is the number of call-pattern matches summed over
    the stored classes whose file can be read, times the number of
    declarations of that name: an overloaded name is counted once per
    overload. *)
Theorem analyze_call_counts (env : Env) (java_files : list string) (path : string)
    (k : string) (i : InterfaceInfo) :
  let s := analyze env java_files (init path) in
  Dict.get k (interfaces (result s)) = Some i ->
  forall m, Dict.get m (method_calls i)
            = if decide (m ∈ methods i)
              then Some (occurrences m (methods i) * matches_in env m (classes (result s)))
              else None.
Proof.
  intros s. unfold s, analyze.
  set (s1 := foldl _ (init path) java_files).
  set (s3 := _find_usages env (_find_implementations s1)).
  assert (H3 : all_values counters_zero (interfaces (result s3))).
  { apply find_usages_all_values; [done|].
    apply find_implementations_all_values; [done|].
    apply parse_phase_counters_zero. }
  assert (Hcomp : all_values counters_complete (interfaces (result s3)))
    by by apply counters_zero_complete.
  pose proof (analyze_method_calls_counted env s3 Hcomp) as Hcounted.
  assert (Hcls : classes (result (_analyze_method_calls env s3)) = classes (result s3))
    by done.
  destruct (calculate_call_depths_spec (_analyze_method_calls env s3)) as (Hres & _ & _).
  simpl. rewrite Hres, Hcls. intros Hget m.
  pose proof (counted_store_get _ _ _ k Hcounted) as Hk. rewrite Hget in Hk.
  destruct (Dict.get k (interfaces (result s3))) as [i3|] eqn:Hget3; [|done].
  destruct Hk as ((_ & _ & Hm & _) & _ & _ & _ & Hc).
  rewrite Hc, (all_values_get _ _ _ _ H3 Hget3 m), <- Hm.
  case_decide; [|done]. simpl. f_equal.
Qed.

Lemma analyze_call_counts_witness :
  exists i, Dict.get "I" (interfaces (result chain_project)) = Some i
            /\ Dict.get "m3" (method_calls i) = Some 1
            /\ Dict.get "run" (method_calls i) = None.
Proof.
  exists (mkInterfaceInfo "I" "I.java" ["m1"; "m2"; "m3"] ["C1"; "C2"] ["C1"]
            [("m1", 0%Z); ("m2", 0%Z); ("m3", 1%Z)] ["J1"]).
  assert (Hget : Dict.get "I" (interfaces (result chain_project))
                 = Some (mkInterfaceInfo "I" "I.java" ["m1"; "m2"; "m3"] ["C1"; "C2"] ["C1"]
                           [("m1", 0%Z); ("m2", 0%Z); ("m3", 1%Z)] ["J1"]))
    by (vm_compute; reflexivity).
  split; [exact Hget|].
  pose proof (analyze_call_counts chain_env chain_files "chain" "I" _ Hget) as Hcount.
  split; rewrite Hcount; vm_compute; reflexivity.
Defined.

(** X12: after [analyze] on a fresh analyzer, the implementations of a
    stored interface are the classes that list it in their implements
    clause, in the order of the class store and once per occurrence, and its
    usages are the classes whose readable file matches a usage pattern for
    its name, in the order of the class store and each once. *)
Theorem analyze_links (env : Env) (java_files : list string) (path : string)
    (k : string) (i : InterfaceInfo) :
  let s := analyze env java_files (init path) in
  Dict.get k (interfaces (result s)) = Some i ->
  implementations i = implementers k (classes (result s))
  /\ usages i = foldl (fun us c => add_once c us) [] (users env k (classes (result s)))
  /\ NoDup (usages i).
Proof.
  intros s. unfold s, analyze.
  set (s1 := foldl _ (init path) java_files).
  set (s2 := _find_implementations s1).
  set (s3 := _find_usages env s2).
  assert (H1 : all_values (fun i => implementations i = [] /\ usages i = [])
                 (interfaces (result s1))).
  { apply parse_phase_all_values; [|constructor].
    intros node p t Ht. unfold _process_interface. simpl. by apply all_values_set. }
  assert (H3 : all_values counters_complete (interfaces (result s3))).
  { apply counters_zero_complete, find_usages_all_values; [done|].
    apply find_implementations_all_values; [done|]. apply parse_phase_counters_zero. }
  pose proof (analyze_method_calls_counted env s3 H3) as Hcounted.
  assert (Hcls : classes (result (_analyze_method_calls env s3)) = classes (result s3))
    by done.
  destruct (calculate_call_depths_spec (_analyze_method_calls env s3)) as (Hres & _ & _).
  simpl. rewrite Hres, Hcls. intros Hget.
  pose proof (counted_store_get _ _ _ k Hcounted) as Hk. rewrite Hget in Hk.
  destruct (Dict.get k (interfaces (result s3))) as [i3|] eqn:Hget3; [|done].
  destruct Hk as (_ & Himpl & Huse & _). rewrite Himpl, Huse. clear Hcounted Hget Himpl Huse.
  pose proof (find_usages_get env s2 k) as Hu. fold s3 in Hu. rewrite Hget3 in Hu.
  pose proof (find_implementations_get s1 k) as Hi. fold s2 in Hi.
  change (classes (result s3)) with (classes (result s1)).
  change (classes (result s2)) with (classes (result s1)) in Hu.
  destruct (Dict.get k (interfaces (result s1))) as [i1|] eqn:Hget1;
    [|rewrite Hi in Hu; done].
  destruct (all_values_get _ _ _ _ H1 Hget1) as [Hi1 Hu1].
  rewrite Hi in Hu. simpl in Hu. injection Hu as ->. simpl.
  rewrite Hi1, Hu1. split_and!; [done|done|]. apply add_all_NoDup. constructor.
Qed.

Lemma analyze_links_witness :
  exists i, Dict.get "I" (interfaces (result chain_project)) = Some i
            /\ implementations i = ["C1"; "C2"] /\ usages i = ["C1"].
Proof.
  exists (mkInterfaceInfo "I" "I.java" ["m1"; "m2"; "m3"] ["C1"; "C2"] ["C1"]
            [("m1", 0%Z); ("m2", 0%Z); ("m3", 1%Z)] ["J1"]).
  assert (Hget : Dict.get "I" (interfaces (result chain_project))
                 = Some (mkInterfaceInfo "I" "I.java" ["m1"; "m2"; "m3"] ["C1"; "C2"] ["C1"]
                           [("m1", 0%Z); ("m2", 0%Z); ("m3", 1%Z)] ["J1"]))
    by (vm_compute; reflexivity).
  split; [exact Hget|].
  destruct (analyze_links chain_env chain_files "chain" "I" _ Hget) as (Himpl & Huse & _).
  split; [rewrite Himpl|rewrite Huse]; vm_compute; reflexivity.
Defined.

(** ** The summary of the report *)

Local Open Scope Q_scope.






Local Close Scope Q_scope.

(** ** The poisoning levels *)

Local Open Scope Q_scope.




Local Close Scope Q_scope.


(** ** The lowest level *)

Local Open Scope Q_scope.

Lemma round_half_even_lower (a : Z) (x : Q) :
  inject_Z a <= x -> (a <= round_half_even x)%Z.
Proof.
  intros Ha. assert (a <= Qfloor x)%Z.
  { rewrite <- (Qfloor_Z a). by apply Qfloor_resp_le. }
  destruct (round_half_even_floor x) as [-> | ->]; lia.
Qed.

Lemma ratio_nonneg (a b : Z) : (0 <= a)%Z -> (0 < b)%Z -> 0 <= inject_Z a / inject_Z b.
Proof.
  intros Ha Hb.
  assert (0 < inject_Z b) by (change 0 with (inject_Z 0); by rewrite <- Zlt_Qlt).
  assert (0 <= inject_Z a) by (change 0 with (inject_Z 0); by rewrite <- Zle_Qle).
  apply Qle_shift_div_l; [done|]. lra.
Qed.

(** X15: in any state of the analyzer, a stored interface that no class
    uses and that at most one class implements has an IPI of at least 0.4,
    exact and rounded, and is never counted LOW. *)
Theorem unused_interface_never_low (s : Analyzer) (interface_name : string)
    (i : InterfaceInfo) (r : IpiRecord) :
  Dict.get interface_name (interfaces (result s)) = Some i ->
  usages i = [] -> (length (implementations i) <= 1)%nat ->
  (calculate_ipi interface_name s).1 = Some r ->
  0.4 <= m_ipi (metrics s interface_name i) /\ 0.4 <= r_IPI r /\ is_low r = false.
Proof.
  intros Hget Hu Hi Hr. unfold calculate_ipi in Hr. rewrite Hget in Hr. simpl in Hr.
  injection Hr as <-.
  assert (Hipi : 0.4 <= m_ipi (metrics s interface_name i)).
  { unfold metrics. cbn [m_ipi]. rewrite Hu. cbn [length Z.of_nat].
    set (sir := if (0 <? Z.of_nat (length (implementations i)))%Z then _ else _).
    set (umr := if (0 <? Z.of_nat (length (methods i)))%Z then _ else _).
    set (ncd := if (1 <? max_call_depth s)%Z then _ else _).
    assert (Hsir : sir == 1).
    { unfold sir. destruct (implementations i) as [|c [|c' l]]; simpl in *; [done|done|lia]. }
    assert (Humr : 0 <= umr).
    { unfold umr. destruct (Z.ltb_spec 0 (Z.of_nat (length (methods i)))); [|lra].
      apply ratio_nonneg; [|done]. pose proof (unused_count_bound (method_calls i)). lia. }
    assert (Hncd : 0 <= ncd).
    { unfold ncd. destruct (Z.ltb_spec 1 (max_call_depth s)); [|lra].
      apply ratio_nonneg; [|lia]. pose proof (depth_stored_positive _ _ _ Hget). lia. }
    assert (Huur : inject_Z 0 / inject_Z (Z.max (total_classes (result s)) 1) == 0).
    { unfold Qdiv. change (inject_Z 0) with 0. ring. }
    rewrite Huur, Hsir. unfold ALPHA, BETA, GAMMA, DELTA. lra. }
  assert (Hround : 0.4 <= round3 (m_ipi (metrics s interface_name i))).
  { unfold round3.
    pose proof (round_half_even_lower 400 (m_ipi (metrics s interface_name i) * 1000)) as H.
    specialize (H ltac:(change (inject_Z 400) with 400; lra)).
    revert H. generalize (round_half_even (m_ipi (metrics s interface_name i) * 1000)).
    intros z Hz. unfold Qle. cbn [Qnum Qden]. lia. }
  split_and!; [done|done|].
  unfold is_low. cbn [to_record r_IPI]. apply negb_false_iff. by apply Qle_bool_iff.
Qed.

Lemma unused_interface_never_low_witness :
  exists i r, Dict.get "J4" (interfaces (result chain_project)) = Some i
              /\ (calculate_ipi "J4" chain_project).1 = Some r
              /\ 0.4 <= r_IPI r /\ is_low r = false.
Proof.
  exists (mkInterfaceInfo "J4" "I.java" [] [] [] [] []).
  exists (mkIpiRecord "J4" 0 1.000 0 0.000 0 0 0.000 1 0.000 0.400).
  assert (Hget : Dict.get "J4" (interfaces (result chain_project))
                 = Some (mkInterfaceInfo "J4" "I.java" [] [] [] [] []))
    by (vm_compute; reflexivity).
  assert (Hr : (calculate_ipi "J4" chain_project).1
               = Some (mkIpiRecord "J4" 0 1.000 0 0.000 0 0 0.000 1 0.000 0.400))
    by (vm_compute; reflexivity).
  split; [exact Hget|]. split; [exact Hr|].
  destruct (unused_interface_never_low chain_project "J4" _ _ Hget eq_refl
              ltac:(simpl; lia) Hr) as (_ & Hrounded & Hlow).
  exact (conj Hrounded Hlow).
Defined.

Local Close Scope Q_scope.
